(** * Pack / unpack device kernels of [pace.util.cuda_kernels]

    The Python module builds the text of four CUDA kernels
    ([pack_scalar], [unpack_scalar], [pack_vector], [unpack_vector]), each
    once for [double] and once for [float], and compiles them with
    [cp.RawKernel].  This development embeds the kernels themselves:

    - an array is a list, and an access outside it is a fault (the C text
      has undefined behaviour there; the index lists are the caller's
      contract);
    - the arrays a kernel takes as [const] are not the array it writes;
    - [int] is 32 bits, two's complement, and its sums and differences wrap;
    - the body of a kernel is a function of the thread identifier and of the
      destination array, in a monad that logs every array access and
      carries the fault;
    - a launch runs the threads of the grid one after the other, in an
      order that the statements leave arbitrary (a thread makes at most one
      write, and reads only arrays that no thread writes);
    - the element type is a parameter, with the product by [-1.0] as its
      only operation, instantiated at binary64 and at binary32. *)

From Stdlib Require Import ZArith List Ascii String Lia.
From Stdlib Require Import PrimFloat SpecFloat FloatOps FloatAxioms.
From stdpp Require Import base list.

Local Open Scope Z_scope.

(** ** The C type [int]: 32 bits, two's complement *)

Module Int32.

Definition INT_MAX : Z := 2147483647.
Definition INT_MIN : Z := -2147483648.

(** Reduction of a mathematical integer to the [int] of the same residue
    modulo [2^32]. *)
Definition to_int (z : Z) : Z := (z + 2147483648) mod 4294967296 - 2147483648.

Definition int_add (a b : Z) : Z := to_int (a + b).
Definition int_sub (a b : Z) : Z := to_int (a - b).

Definition in_range (z : Z) : Prop := INT_MIN <= z <= INT_MAX.

End Int32.
Export Int32.

(** ** Array accesses: a log and a fault *)

(** One access of a thread: the kernel parameter that names the array, and
    the position. *)
Inductive access : Type :=
| Rd (array : string) (pos : Z)
| Wr (array : string) (pos : Z).

(** A computation of a thread: the accesses it made, in order, and its
    result, [None] when an access was outside its array. *)
Definition M (A : Type) : Type := (list access * option A)%type.

#[global] Instance M_ret : MRet M := λ A x, ([], Some x).

#[global] Instance M_bind : MBind M := λ A B f m,
  match m.2 with
  | Some x => (m.1 ++ (f x).1, (f x).2)
  | None => (m.1, None)
  end.

Definition accesses {A} (m : M A) : list access := m.1.
Definition outcome {A} (m : M A) : option A := m.2.

(** The element [a[i]] of an array, when [i] is a position of it. *)
Definition read {A} (a : list A) (i : Z) : option A :=
  if 0 <=? i then a !! Z.to_nat i else None.

(** The array after [a[i] = v], when [i] is a position of it. *)
Definition write {A} (a : list A) (i : Z) (v : A) : option (list A) :=
  if (0 <=? i) && (i <? Z.of_nat (length a)) then Some (<[Z.to_nat i := v]> a)
  else None.

(** [source[index[i]]]. *)
Definition gathered {A} (source : list A) (index : list Z) (i : Z) : option A :=
  read index i ≫= read source.

(** [a[i]] as a value. *)
Definition load {A} (name : string) (a : list A) (i : Z) : M A :=
  ([Rd name i], read a i).

(** [a[i] = v]. *)
Definition store {A} (name : string) (a : list A) (i : Z) (v : A) : M (list A) :=
  ([Wr name i], write a i v).

(** ** The element type [{fdtype}] *)

(** What the kernels ask of the element type: the product [-1.0 * v], and
    (for the arrays a caller allocates with [zeros]) its zero. *)
Class Fdtype : Type := {
  fval : Type;
  fzero : fval;
  neg1_mul : fval → fval;
}.

(** [fdtype = "double"]: IEEE binary64, the primitive floating-point numbers
    (in which, as in [spec_float], all NaNs are one value). *)
#[global] Instance double : Fdtype := {|
  fval := PrimFloat.float;
  fzero := 0%float;
  neg1_mul v := ((-1.0) * v)%float;
|}.

(** The binary64 number [-1.0]. *)
Definition SF_minus_one : spec_float := S754_finite true 4503599627370496 (-52).

(** The conversion of a binary64 number to binary32, to nearest. *)
Definition binary32_of_binary64 (v : spec_float) : spec_float :=
  match v with
  | S754_finite s m e => binary_round 24 128 s m e
  | _ => v
  end.

(** [fdtype = "float"]: IEEE binary32.  [-1.0] is a [double] constant: the
    element is converted to binary64 (the same number), the product is taken
    in binary64, and the assignment converts it to binary32. *)
#[global] Instance float32 : Fdtype := {|
  fval := spec_float;
  fzero := S754_zero false;
  neg1_mul v := binary32_of_binary64 (SFmul 53 1024 SF_minus_one v);
|}.

(** The binary32 number of an integer. *)
Definition f32 (z : Z) : spec_float := binary_normalize 24 128 z 0 false.

(** ** The kernels, one thread *)

Section Kernels.
Context {fd : Fdtype}.

(** [int tid = blockDim.x * blockIdx.x + threadIdx.x;] the product and the
    sum are taken on 32-bit unsigned values and the result converted to
    [int]. *)
Definition global_tid (blockDim blockIdx threadIdx : Z) : Z :=
  to_int (blockDim * blockIdx + threadIdx).

Definition pack_scalar (i_sourceArray : list fval) (i_indexes : list Z)
    (i_nIndex i_offset : Z) (tid : Z) (o_destinationBuffer : list fval)
  : M (list fval) :=
  if tid >=? i_nIndex then mret o_destinationBuffer
  else
    k ← load "i_indexes" i_indexes tid;
    v ← load "i_sourceArray" i_sourceArray k;
    store "o_destinationBuffer" o_destinationBuffer (int_add i_offset tid) v.

(** In [o_destinationArray[i_indexes[tid]] = i_sourceBuffer[i_offset+tid]]
    C leaves the order of the two reads open; the buffer is read first
    here. *)
Definition unpack_scalar (i_sourceBuffer : list fval) (i_indexes : list Z)
    (i_nIndex i_offset : Z) (tid : Z) (o_destinationArray : list fval)
  : M (list fval) :=
  if tid >=? i_nIndex then mret o_destinationArray
  else
    v ← load "i_sourceBuffer" i_sourceBuffer (int_add i_offset tid);
    k ← load "i_indexes" i_indexes tid;
    store "o_destinationArray" o_destinationArray k v.

Definition pack_vector (i_sourceArrayX i_sourceArrayY : list fval)
    (i_indexesX i_indexesY : list Z)
    (i_nIndexX i_nIndexY i_offset i_rotate : Z)
    (tid : Z) (o_destinationBuffer : list fval)
  : M (list fval) :=
  if tid >=? int_add i_nIndexX i_nIndexY then mret o_destinationBuffer
  else if i_rotate =? 0 then
    if tid <? i_nIndexX then
      k ← load "i_indexesX" i_indexesX tid;
      v ← load "i_sourceArrayX" i_sourceArrayX k;
      store "o_destinationBuffer" o_destinationBuffer (int_add i_offset tid) v
    else
      k ← load "i_indexesY" i_indexesY (int_sub tid i_nIndexX);
      v ← load "i_sourceArrayY" i_sourceArrayY k;
      store "o_destinationBuffer" o_destinationBuffer (int_add i_offset tid) v
  else if i_rotate =? 1 then
    if tid <? i_nIndexY then
      k ← load "i_indexesY" i_indexesY tid;
      v ← load "i_sourceArrayY" i_sourceArrayY k;
      store "o_destinationBuffer" o_destinationBuffer (int_add i_offset tid) v
    else
      k ← load "i_indexesX" i_indexesX (int_sub tid i_nIndexY);
      v ← load "i_sourceArrayX" i_sourceArrayX k;
      store "o_destinationBuffer" o_destinationBuffer (int_add i_offset tid)
            (neg1_mul v)
  else if i_rotate =? 2 then
    if tid <? i_nIndexX then
      k ← load "i_indexesX" i_indexesX tid;
      v ← load "i_sourceArrayX" i_sourceArrayX k;
      store "o_destinationBuffer" o_destinationBuffer (int_add i_offset tid)
            (neg1_mul v)
    else
      k ← load "i_indexesY" i_indexesY (int_sub tid i_nIndexX);
      v ← load "i_sourceArrayY" i_sourceArrayY k;
      store "o_destinationBuffer" o_destinationBuffer (int_add i_offset tid)
            (neg1_mul v)
  else if i_rotate =? 3 then
    if tid <? i_nIndexY then
      k ← load "i_indexesY" i_indexesY tid;
      v ← load "i_sourceArrayY" i_sourceArrayY k;
      store "o_destinationBuffer" o_destinationBuffer (int_add i_offset tid)
            (neg1_mul v)
    else
      k ← load "i_indexesX" i_indexesX (int_sub tid i_nIndexY);
      v ← load "i_sourceArrayX" i_sourceArrayX k;
      store "o_destinationBuffer" o_destinationBuffer (int_add i_offset tid) v
  else mret o_destinationBuffer.

(** The two destination arrays of [unpack_vector] are one state,
    [(o_destinationArrayX, o_destinationArrayY)]. *)
Definition unpack_vector (i_sourceBuffer : list fval)
    (i_indexesX i_indexesY : list Z)
    (i_nIndexX i_nIndexY i_offset : Z)
    (tid : Z) (o_destinationArrays : list fval * list fval)
  : M (list fval * list fval) :=
  let '(o_destinationArrayX, o_destinationArrayY) := o_destinationArrays in
  if tid <? i_nIndexX then
    v ← load "i_sourceBuffer" i_sourceBuffer (int_add i_offset tid);
    k ← load "i_indexesX" i_indexesX tid;
    x ← store "o_destinationArrayX" o_destinationArrayX k v;
    mret (x, o_destinationArrayY)
  else if tid <? int_add i_nIndexX i_nIndexY then
    v ← load "i_sourceBuffer" i_sourceBuffer (int_add i_offset tid);
    k ← load "i_indexesY" i_indexesY (int_sub tid i_nIndexX);
    y ← store "o_destinationArrayY" o_destinationArrayY k v;
    mret (o_destinationArrayX, y)
  else mret (o_destinationArrayX, o_destinationArrayY).

End Kernels.

(** ** A launch *)

(** The threads of [sched], one after the other; a fault of one ends the
    launch. *)
Fixpoint run_threads {S} (body : Z → S → M S) (sched : list Z) (st : S) : M S :=
  match sched with
  | [] => mret st
  | tid :: rest => st' ← body tid st; run_threads body rest st'
  end.

(** The thread identifiers of a grid of [gridDim] blocks of [blockDim]
    threads, block after block. *)
Definition grid_tids (gridDim blockDim : nat) : list Z :=
  flat_map
    (λ b, map (λ t, global_tid (Z.of_nat blockDim) (Z.of_nat b) (Z.of_nat t))
              (seq 0 blockDim))
    (seq 0 gridDim).

Definition launch {S} (body : Z → S → M S) (gridDim blockDim : nat) (st : S) : M S :=
  run_threads body (grid_tids gridDim blockDim) st.

(** The instances the module builds, [cp.RawKernel(pack_scalar_code("double"),
    "pack_scalar_double")] and the like. *)
Definition pack_scalar_f64_kernel := @pack_scalar double.
Definition unpack_scalar_f64_kernel := @unpack_scalar double.
Definition pack_vector_f64_kernel := @pack_vector double.
Definition unpack_vector_f64_kernel := @unpack_vector double.
Definition pack_scalar_f32_kernel := @pack_scalar float32.
Definition unpack_scalar_f32_kernel := @unpack_scalar float32.
Definition pack_vector_f32_kernel := @pack_vector float32.
Definition unpack_vector_f32_kernel := @unpack_vector float32.

(** A kernel body is inert from [N] on when a thread whose identifier is at
    least [N] makes no access and leaves the state as it is. *)
Definition inert_from {S} (body : Z → S → M S) (N : Z) : Prop :=
  ∀ tid st, N <= tid → body tid st = mret st.

(** A schedule covers the work [[0, N)] when every identifier below [N] is
    run at least once. *)
Definition covers (sched : list Z) (N : Z) : Prop :=
  ∀ i, 0 <= i < N → i ∈ sched.

(** The threads of a launch run in an order the device chooses: a schedule
    of a grid is any arrangement of its identifiers. *)
Definition schedule_of (gridDim blockDim : nat) (sched : list Z) : Prop :=
  sched ≡ₚ grid_tids gridDim blockDim.

(** The threads past the count [N] of a kernel are inert in a launch of
    [gridDim * blockDim] threads: each makes no access and changes nothing;
    the launch, threads in order, is the launch of one block of exactly [N]
    threads; and whatever the order of the threads, dropping the ones past
    [N] gives an order of that block with the same accesses and result. *)
Definition extra_threads_inert {S} (body : Z → S → M S) (N : Z)
    (gridDim blockDim : nat) : Prop :=
  (∀ tid st, N <= tid → body tid st = ([], Some st))
  ∧ (∀ st, launch body gridDim blockDim st = launch body 1 (Z.to_nat N) st)
  ∧ (∀ sched st, schedule_of gridDim blockDim sched →
       ∃ sched', schedule_of 1 (Z.to_nat N) sched'
               ∧ run_threads body sched st = run_threads body sched' st).

(** ** The packed range as two segments (the table of rotations)

    The description of [pack_vector] the kernels are compared with: the
    packed range is a first segment followed by a second one, each gathered
    from one source array through one index list, copied or multiplied by
    [-1.0]. *)

Section Segments.
Context {fd : Fdtype}.

Record segment : Type := Segment {
  seg_indexes_name : string;
  seg_source_name : string;
  seg_source : list fval;
  seg_indexes : list Z;
  seg_n : Z;
  seg_negate : bool;
}.

Definition seg_value (s : segment) (v : fval) : fval :=
  if seg_negate s then neg1_mul v else v.

(** The value a segment holds at its position [pos]. *)
Definition seg_at (s : segment) (pos : Z) : option fval :=
  seg_value s <$> gathered (seg_source s) (seg_indexes s) pos.

(** One element of a segment gathered into [slot] of the buffer. *)
Definition gather (s : segment) (pos slot : Z) (buffer : list fval)
  : M (list fval) :=
  k ← load (seg_indexes_name s) (seg_indexes s) pos;
  v ← load (seg_source_name s) (seg_source s) k;
  store "o_destinationBuffer" buffer slot (seg_value s v).

(** A thread of a pack of [N] elements in two segments. *)
Definition pack_segments (N : Z) (s1 s2 : segment) (offset : Z)
    (tid : Z) (buffer : list fval) : M (list fval) :=
  if tid >=? N then mret buffer
  else if tid <? seg_n s1 then gather s1 tid (int_add offset tid) buffer
  else gather s2 (int_sub tid (seg_n s1)) (int_add offset tid) buffer.

(** The index list of a segment has the declared length and holds
    positions of the source array. *)
Definition seg_ok (s : segment) : Prop :=
  Z.of_nat (length (seg_indexes s)) = seg_n s
  ∧ Forall (λ k, 0 <= k < Z.of_nat (length (seg_source s))) (seg_indexes s).

Definition segX (x : list fval) (ix : list Z) (nX : Z) (negate : bool) :=
  Segment "i_indexesX" "i_sourceArrayX" x ix nX negate.
Definition segY (y : list fval) (iy : list Z) (nY : Z) (negate : bool) :=
  Segment "i_indexesY" "i_sourceArrayY" y iy nY negate.

(** The table: the first and the second segment under a rotation code. *)
Definition rotation_segments (x y : list fval) (ix iy : list Z) (nX nY : Z)
    (rotate : Z) : option (segment * segment) :=
  if rotate =? 0 then Some (segX x ix nX false, segY y iy nY false)
  else if rotate =? 1 then Some (segY y iy nY false, segX x ix nX true)
  else if rotate =? 2 then Some (segX x ix nX true, segY y iy nY true)
  else if rotate =? 3 then Some (segY y iy nY true, segX x ix nX false)
  else None.
End Segments.

(** ** Pack invocations

    An invocation of either pack kernel on a buffer: the kernel, its arrays
    and its scalar arguments. *)
Inductive pack_call {fd : Fdtype} : Type :=
| PackScalar (source : list fval) (index : list Z) (n offset : Z)
| PackVector (x y : list fval) (indexX indexY : list Z)
             (nX nY offset rotate : Z).

Definition pack_body {fd : Fdtype} (c : pack_call)
  : Z → list fval → M (list fval) :=
  match c with
  | PackScalar source index n offset => pack_scalar source index n offset
  | PackVector x y indexX indexY nX nY offset rotate =>
      pack_vector x y indexX indexY nX nY offset rotate
  end.

Definition pack_offset {fd : Fdtype} (c : pack_call) : Z :=
  match c with
  | PackScalar _ _ _ offset => offset
  | PackVector _ _ _ _ _ _ offset _ => offset
  end.

(** The declared count: [n], or [nX + nY]. *)
Definition pack_count {fd : Fdtype} (c : pack_call) : Z :=
  match c with
  | PackScalar _ _ n _ => n
  | PackVector _ _ _ _ nX nY _ _ => nX + nY
  end.

(** The caller's side of the contract, for a buffer of [len] elements: index
    lists of the declared lengths that hold positions of their arrays, and a
    range [[offset, offset + count)] inside the buffer and inside [int]. *)
Definition pack_ok {fd : Fdtype} (c : pack_call) (len : nat) : Prop :=
  match c with
  | PackScalar source index n offset =>
      Z.of_nat (length index) = n
      ∧ Forall (λ k, 0 <= k < Z.of_nat (length source)) index
      ∧ 0 <= offset ∧ offset + n <= Z.of_nat len ∧ offset + n <= INT_MAX + 1
  | PackVector x y indexX indexY nX nY offset rotate =>
      Z.of_nat (length indexX) = nX
      ∧ Forall (λ k, 0 <= k < Z.of_nat (length x)) indexX
      ∧ Z.of_nat (length indexY) = nY
      ∧ Forall (λ k, 0 <= k < Z.of_nat (length y)) indexY
      ∧ nX + nY <= INT_MAX
      ∧ 0 <= offset ∧ offset + nX + nY <= Z.of_nat len
      ∧ offset + nX + nY <= INT_MAX + 1
  end.

(** The position [p] is in the range of the invocation. *)
Definition in_pack_range {fd : Fdtype} (c : pack_call) (p : Z) : Prop :=
  pack_offset c <= p < pack_offset c + pack_count c.

(** An access that, if a write, is a write of the array [name] at a position
    of [[lo, hi)], and if a read, is not a read of [name]. *)
Definition writes_within (name : string) (lo hi : Z) (e : access) : Prop :=
  match e with
  | Wr a p => a = name ∧ lo <= p < hi
  | Rd a _ => a ≠ name
  end.

(** The arrays a segment reads are not the destination buffer. *)
Definition seg_names_ok {fd : Fdtype} (s : segment) : Prop :=
  seg_indexes_name s ≠ "o_destinationBuffer"%string
  ∧ seg_source_name s ≠ "o_destinationBuffer"%string.

(** ** The rotation of one vector

    The vector [(x, y)] is sent as a field of one element: packed under a
    rotation code by a first launch, and unpacked by a second one into the
    components of the vector received. *)
Definition rotate_vector {fd : Fdtype} (rotate : Z) (xy : fval * fval)
  : option (fval * fval) :=
  buffer ← outcome (launch (pack_vector [xy.1] [xy.2] [0] [0] 1 1 0 rotate) 1 2
                           [fzero; fzero]);
  arrays ← outcome (launch (unpack_vector buffer [0] [0] 1 1 0) 1 2
                           ([fzero], [fzero]));
  x ← read arrays.1 0;
  y ← read arrays.2 0;
  Some (x, y).

(** ** Where a packed slot comes from

    The slot [offset + tid] of the packed buffer [B] derives from the array
    [source] through the index list [index] at its position [pos], and from
    nothing else: the thread [tid], on whatever buffer it runs, reads
    [index[pos]], reads [source] there, writes [value] of what it read at
    [offset + tid] and makes no other access; and [B] holds that value
    there. *)
Definition slot_derives_from {fd : Fdtype}
    (body : Z → list fval → M (list fval)) (B : list fval) (offset tid : Z)
    (index_name source_name : string) (source : list fval) (index : list Z)
    (pos : Z) (value : fval → fval) : Prop :=
  ∃ k v, read index pos = Some k
       ∧ read source k = Some v
       ∧ (∀ D, body tid D
               = ([Rd index_name pos; Rd source_name k;
                   Wr "o_destinationBuffer" (offset + tid)],
                  write D (offset + tid) (value v)))
       ∧ read B (offset + tid) = Some (value v).

(** ** The Python module: the text of the kernels

    Each [*_code] function formats a template with [str.format]; the module
    then builds, when [cupy] could be imported, one [cp.RawKernel] per kernel
    and element type. *)

Module Source.
Local Open Scope string_scope.

(** The double quote and the newline. *)
Definition dq : string := String "034"%char EmptyString.
Definition nl : string := String "010"%char EmptyString.

Inductive exception : Type :=
| ValueError
| KeyError (key : string)
| IndexError
| NotModelled.

Inductive result (A : Type) : Type :=
| Return (a : A)
| Raise (e : exception).
Arguments Return {A} a.
Arguments Raise {A} e.

(** What the scan of a format string yields, from left to right: literal
    text, a replacement field, or the error at which the scan stops. *)
Inductive piece : Type :=
| Lit (text : string)
| Field (name : string)
| Malformed (e : exception).

Definition push (c : ascii) (ps : list piece) : list piece :=
  match ps with
  | Lit l :: ps' => Lit (String c l) :: ps'
  | _ => Lit (String c EmptyString) :: ps
  end.

(** A replacement field with a conversion, a format specification, an
    attribute or an index is outside what is modelled. *)
Definition field_char_modelled (c : ascii) : bool :=
  negb ((c =? "!") || (c =? ":") || (c =? ".") || (c =? "["))%char.

(** The scan of [str.format]: [{{] and [}}] are the braces, [{name}] is a
    field, a brace alone is a [ValueError].  [field] is the part of a field
    name read so far. *)
Fixpoint scan (s : string) (field : option string) : list piece :=
  match s with
  | EmptyString =>
      match field with
      | None => []
      | Some _ => [Malformed ValueError]
      end
  | String c rest =>
      match field with
      | Some name =>
          if (c =? "}")%char then Field name :: scan rest None
          else if (c =? "{")%char then [Malformed ValueError]
          else if field_char_modelled c
               then scan rest (Some (name ++ String c EmptyString))
               else [Malformed NotModelled]
      | None =>
          if (c =? "{")%char then
            match rest with
            | String "{"%char rest' => push "{"%char (scan rest' None)
            | _ => scan rest (Some EmptyString)
            end
          else if (c =? "}")%char then
            match rest with
            | String "}"%char rest' => push "}"%char (scan rest' None)
            | _ => [Malformed ValueError]
            end
          else push c (scan rest None)
      end
  end.

Definition is_digit (c : ascii) : bool :=
  ((48 <=? nat_of_ascii c) && (nat_of_ascii c <=? 57))%nat.

Fixpoint all_digits (s : string) : bool :=
  match s with
  | EmptyString => true
  | String c rest => is_digit c && all_digits rest
  end.

Fixpoint lookup_kwarg (name : string) (kwargs : list (string * string))
  : option string :=
  match kwargs with
  | [] => None
  | (k, v) :: rest => if (k =? name) then Some v else lookup_kwarg name rest
  end.

(** The value of a field when [format] is given keyword arguments only: an
    empty or numeric name asks for a positional argument. *)
Definition field_value (name : string) (kwargs : list (string * string))
  : result string :=
  if all_digits name then Raise IndexError
  else match lookup_kwarg name kwargs with
       | Some v => Return v
       | None => Raise (KeyError name)
       end.

Fixpoint render (kwargs : list (string * string)) (ps : list piece)
  : result string :=
  match ps with
  | [] => Return EmptyString
  | Lit l :: ps' =>
      match render kwargs ps' with
      | Return t => Return (l ++ t)
      | Raise e => Raise e
      end
  | Field name :: ps' =>
      match field_value name kwargs with
      | Return v =>
          match render kwargs ps' with
          | Return t => Return (v ++ t)
          | Raise e => Raise e
          end
      | Raise e => Raise e
      end
  | Malformed e :: _ => Raise e
  end.

(** [template.format] with keyword arguments, all of them strings. *)
Definition format (template : string) (kwargs : list (string * string))
  : result string :=
  render kwargs (scan template None).

Definition pack_scalar_template : string :=
  String.concat nl
    [
     EmptyString;
     "    extern " ++ dq ++ "C" ++ dq ++ " __global__";
     "    void pack_scalar_{fdtype}(const {fdtype}* i_sourceArray,";
     "                        const int* i_indexes,";
     "                        const int i_nIndex,";
     "                        const int i_offset,";
     "                        {fdtype}* o_destinationBuffer)";
     "    {{";
     "        int tid = blockDim.x * blockIdx.x + threadIdx.x;";
     "        if (tid>=i_nIndex)";
     "        {{";
     "            return;";
     "        }}";
     EmptyString;
     "        o_destinationBuffer[i_offset+tid] = i_sourceArray[i_indexes[tid]];";
     "    }}";
     EmptyString;
     "    " ].

Definition pack_scalar_code (float_dtype : string) : result string :=
  format pack_scalar_template [("fdtype", float_dtype)].

Definition unpack_scalar_template : string :=
  String.concat nl
    [
     EmptyString;
     "            extern " ++ dq ++ "C" ++ dq ++ " __global__";
     "            void unpack_scalar_{fdtype}(const {fdtype}* i_sourceBuffer,";
     "                                const int* i_indexes,";
     "                                const int i_nIndex,";
     "                                const int i_offset,";
     "                                {fdtype}* o_destinationArray)";
     "            {{";
     "                int tid = blockDim.x * blockIdx.x + threadIdx.x;";
     "                if (tid>=i_nIndex)";
     "                    return;";
     EmptyString;
     "                o_destinationArray[i_indexes[tid]] = i_sourceBuffer[i_offset+tid];";
     "            }}";
     EmptyString;
     "            " ].

Definition unpack_scalar_code (float_dtype : string) : result string :=
  format unpack_scalar_template [("fdtype", float_dtype)].

Definition pack_vector_template : string :=
  String.concat nl
    [
     EmptyString;
     "    extern " ++ dq ++ "C" ++ dq ++ " __global__";
     "    void pack_vector_{fdtype}(const {fdtype}* i_sourceArrayX,";
     "                        const {fdtype}* i_sourceArrayY,";
     "                        const int* i_indexesX,";
     "                        const int* i_indexesY,";
     "                        const int i_nIndexX,";
     "                        const int i_nIndexY,";
     "                        const int i_offset,";
     "                        const int i_rotate,";
     "                        {fdtype}* o_destinationBuffer)";
     "    {{";
     "        int tid = blockDim.x * blockIdx.x + threadIdx.x;";
     "        if (tid>=i_nIndexX+i_nIndexY)";
     "            return;";
     EmptyString;
     "        if (i_rotate == 0)";
     "        {{";
     "            //pass";
     "            if (tid<i_nIndexX)";
     "                o_destinationBuffer[i_offset+tid] = i_sourceArrayX[i_indexesX[tid]];";
     "            else";
     "                o_destinationBuffer[i_offset+tid] = i_sourceArrayY[i_indexesY[tid-i_nIndexX]];";
     "        }}";
     "        else if (i_rotate == 1)";
     "        {{";
     "            //data[0], data[1] = data[1], -data[0]";
     "            if (tid<i_nIndexY)";
     "                o_destinationBuffer[i_offset+tid] = i_sourceArrayY[i_indexesY[tid]];";
     "            else";
     "                o_destinationBuffer[i_offset+tid] = -1.0 * i_sourceArrayX[i_indexesX[tid-i_nIndexY]];";
     "        }}";
     "        else if (i_rotate == 2)";
     "        {{";
     "            //data[0], data[1] = -data[0], -data[1]";
     "            if (tid<i_nIndexX)";
     "                o_destinationBuffer[i_offset+tid] = -1.0 * i_sourceArrayX[i_indexesX[tid]];";
     "            else";
     "                o_destinationBuffer[i_offset+tid] = -1.0 * i_sourceArrayY[i_indexesY[tid-i_nIndexX]];";
     "        }}";
     "        else if (i_rotate == 3)";
     "        {{";
     "            //data[0], data[1] = -data[1], data[0]";
     "            if (tid<i_nIndexY)";
     "                o_destinationBuffer[i_offset+tid] = -1.0 * i_sourceArrayY[i_indexesY[tid]];";
     "            else";
     "                o_destinationBuffer[i_offset+tid] = i_sourceArrayX[i_indexesX[tid-i_nIndexY]];";
     "        }}";
     EmptyString;
     "    }}";
     EmptyString;
     "    " ].

Definition pack_vector_code (float_dtype : string) : result string :=
  format pack_vector_template [("fdtype", float_dtype)].

Definition unpack_vector_template : string :=
  String.concat nl
    [
     EmptyString;
     "        extern " ++ dq ++ "C" ++ dq ++ " __global__";
     "        void unpack_vector_{fdtype}(const {fdtype}* i_sourceBuffer,";
     "                            const int* i_indexesX,";
     "                            const int* i_indexesY,";
     "                            const int i_nIndexX,";
     "                            const int i_nIndexY,";
     "                            const int i_offset,";
     "                            {fdtype}* o_destinationArrayX,";
     "                            {fdtype}* o_destinationArrayY)";
     "        {{";
     "            int tid = blockDim.x * blockIdx.x + threadIdx.x;";
     EmptyString;
     "            if (tid<i_nIndexX)";
     "                o_destinationArrayX[i_indexesX[tid]] = i_sourceBuffer[i_offset+tid];";
     "            else if (tid<i_nIndexX+i_nIndexY)";
     "                o_destinationArrayY[i_indexesY[tid-i_nIndexX]] = i_sourceBuffer[i_offset+tid];";
     "        }}";
     EmptyString;
     "        " ].

Definition unpack_vector_code (float_dtype : string) : result string :=
  format unpack_vector_template [("fdtype", float_dtype)].

(** The module [cupy], when it could be imported. *)
Variant cupy : Type := Cupy.

(** [cp.RawKernel(code, name)]: the kernel of that name in that code,
    compiled when first called. *)
Record RawKernel : Type := { code : string; name : string }.

(** [None if cp is None else cp.RawKernel(code, name)]; the code is
    generated only when [cp] is there. *)
Definition raw_kernel_or_none (cp : option cupy)
    (code_of : string → result string) (float_dtype name : string)
  : result (option RawKernel) :=
  match cp with
  | None => Return None
  | Some _ =>
      match code_of float_dtype with
      | Return c => Return (Some {| code := c; name := name |})
      | Raise e => Raise e
      end
  end.

Definition pack_scalar_f64_kernel (cp : option cupy) :=
  raw_kernel_or_none cp pack_scalar_code "double" "pack_scalar_double".
Definition pack_scalar_f32_kernel (cp : option cupy) :=
  raw_kernel_or_none cp pack_scalar_code "float" "pack_scalar_float".
Definition unpack_scalar_f64_kernel (cp : option cupy) :=
  raw_kernel_or_none cp unpack_scalar_code "double" "unpack_scalar_double".
Definition unpack_scalar_f32_kernel (cp : option cupy) :=
  raw_kernel_or_none cp unpack_scalar_code "float" "unpack_scalar_float".
Definition pack_vector_f64_kernel (cp : option cupy) :=
  raw_kernel_or_none cp pack_vector_code "double" "pack_vector_double".
Definition pack_vector_f32_kernel (cp : option cupy) :=
  raw_kernel_or_none cp pack_vector_code "float" "pack_vector_float".
Definition unpack_vector_f64_kernel (cp : option cupy) :=
  raw_kernel_or_none cp unpack_vector_code "double" "unpack_vector_double".
Definition unpack_vector_f32_kernel (cp : option cupy) :=
  raw_kernel_or_none cp unpack_vector_code "float" "unpack_vector_float".

(** [needle] occurs in [text]. *)
Definition occurs_in (needle text : string) : Prop :=
  ∃ before after, text = before ++ needle ++ after.

(** The text before a given end of a string, when it ends so. *)
Fixpoint strip_suffix (suffix s : string) : option string :=
  if (s =? suffix) then Some EmptyString
  else match s with
       | EmptyString => None
       | String c rest =>
           match strip_suffix suffix rest with
           | Some before => Some (String c before)
           | None => None
           end
       end.

(** The text after a given start of a string, when it starts so. *)
Fixpoint strip_prefix (prefix s : string) : option string :=
  match prefix with
  | EmptyString => Some s
  | String c prefix' =>
      match s with
      | String c' rest => if (c =? c')%char then strip_prefix prefix' rest else None
      | EmptyString => None
      end
  end.

(** Every field of the scan is [{fdtype}], and the scan met no error. *)
Definition only_fdtype (ps : list piece) : bool :=
  forallb (λ p, match p with
                | Lit _ => true
                | Field name => (name =? "fdtype")
                | Malformed _ => false
                end) ps.

(** The scan has a field [{fdtype}] between text that ends in [prefix] and
    text that starts with [suffix]. *)
Fixpoint field_between (prefix suffix : string) (ps : list piece) : bool :=
  match ps with
  | [] => false
  | Lit l :: rest =>
      match rest with
      | Field name :: Lit l' :: _ =>
          (name =? "fdtype")
          && match strip_suffix prefix l, strip_prefix suffix l' with
             | Some _, Some _ => true
             | _, _ => false
             end
      | _ => false
      end
      || field_between prefix suffix rest
  | _ :: rest => field_between prefix suffix rest
  end.

(** The text declares the function [entry]: the name that [cp.RawKernel]
    looks up in the compiled code. *)
Definition declares (entry text : string) : Prop :=
  occurs_in ("void " ++ entry ++ "(") text.

(** The eight module attributes, each with the name given to
    [cp.RawKernel]. *)
Definition handles : list (string * (option cupy → result (option RawKernel))) :=
  [ ("pack_scalar_double", pack_scalar_f64_kernel);
    ("pack_scalar_float", pack_scalar_f32_kernel);
    ("unpack_scalar_double", unpack_scalar_f64_kernel);
    ("unpack_scalar_float", unpack_scalar_f32_kernel);
    ("pack_vector_double", pack_vector_f64_kernel);
    ("pack_vector_float", pack_vector_f32_kernel);
    ("unpack_vector_double", unpack_vector_f64_kernel);
    ("unpack_vector_float", unpack_vector_f32_kernel) ].

End Source.

(** * Properties *)

(** ** Arithmetic of [int] *)

Lemma to_int_in_range z : in_range z → to_int z = z.
Proof.
  unfold in_range, INT_MIN, INT_MAX, to_int. intros Hz.
  rewrite Z.mod_small; lia.
Qed.

Lemma int_add_exact a b : in_range (a + b) → int_add a b = a + b.
Proof. apply to_int_in_range. Qed.

Lemma int_sub_exact a b : in_range (a - b) → int_sub a b = a - b.
Proof. apply to_int_in_range. Qed.

(** ** The product by [-1.0] *)

Lemma Prim2SF_minus_one : Prim2SF (-1)%float = SF_minus_one.
Proof. reflexivity. Qed.

Lemma digits2_pos_xO_iter (m : positive) (n : nat) :
  Z.pos (digits2_pos (Nat.iter n xO m)) = Z.pos (digits2_pos m) + Z.of_nat n.
Proof.
  induction n as [|n IH]; [simpl; lia|].
  change (Nat.iter (S n) xO m) with (xO (Nat.iter n xO m)).
  cbn [digits2_pos]. lia.
Qed.

(** Shifting low zero bits out of a mantissa loses nothing. *)
Lemma iter_pos_shr_1 (p : positive) (m : positive) (k : nat) :
  (Pos.to_nat p ≤ k)%nat →
  SpecFloat.iter_pos shr_1 p (Build_shr_record (Z.pos (Nat.iter k xO m)) false false)
  = Build_shr_record (Z.pos (Nat.iter (k - Pos.to_nat p) xO m)) false false.
Proof.
  revert k. induction p as [p IH|p IH|]; intros k Hk; cbn [SpecFloat.iter_pos].
  - destruct k as [|k]; [lia|].
    change (Nat.iter (S k) xO m) with (xO (Nat.iter k xO m)). cbn [shr_1 orb].
    rewrite !IH by lia. do 2 f_equal. f_equal. lia.
  - rewrite !IH by lia. do 2 f_equal. f_equal. lia.
  - destruct k as [|k]; [lia|].
    change (Nat.iter (S k) xO m) with (xO (Nat.iter k xO m)). cbn [shr_1 orb].
    do 2 f_equal. f_equal. lia.
Qed.

Lemma shr_low_zeros (m : positive) (k : nat) e n :
  0 <= n <= Z.of_nat k →
  shr (Build_shr_record (Z.pos (Nat.iter k xO m)) false false) e n
  = (Build_shr_record (Z.pos (Nat.iter (k - Z.to_nat n) xO m)) false false, e + n).
Proof.
  intros Hn. unfold shr. destruct n as [|p|p]; [|rewrite iter_pos_shr_1|]; try lia.
  - by rewrite Nat.sub_0_r, Z.add_0_r.
  - done.
Qed.

(** Rounding a mantissa [m * 2^k] whose dropped bits are among the [k] low
    zeros is exact, in any format. *)
Lemma binary_round_aux_low_zeros prec emax s (m : positive) (k : nat) e :
  let n := fexp prec emax (Z.pos (digits2_pos m) + Z.of_nat k + e) - e in
  0 <= n <= Z.of_nat k →
  binary_round_aux prec emax s (Z.pos (Nat.iter k xO m)) e loc_Exact
  = if e + n <=? emax - prec
    then S754_finite s (Nat.iter (k - Z.to_nat n) xO m) (e + n)
    else S754_infinity s.
Proof.
  intros n Hn. unfold binary_round_aux, shr_fexp.
  cbn [Zdigits2 shr_record_of_loc]. rewrite digits2_pos_xO_iter.
  fold n. rewrite shr_low_zeros by done.
  cbn [shr_m loc_of_shr_record round_nearest_even Zdigits2 shr_record_of_loc].
  rewrite digits2_pos_xO_iter.
  replace (Z.pos (digits2_pos m) + Z.of_nat (k - Z.to_nat n) + (e + n))
    with (Z.pos (digits2_pos m) + Z.of_nat k + e) by lia.
  replace (fexp prec emax (Z.pos (digits2_pos m) + Z.of_nat k + e) - (e + n))
    with 0 by (unfold n; lia).
  done.
Qed.

(** On a finite binary64 number the product by [-1.0] is exact. *)
Lemma SF64mul_minus_one_finite s m e :
  bounded 53 1024 m e = true →
  SFmul 53 1024 SF_minus_one (S754_finite s m e) = S754_finite (negb s) m e.
Proof.
  unfold bounded, canonical_mantissa. intros [Hc He]%andb_prop.
  apply Z.eqb_eq in Hc. apply Z.leb_le in He.
  set (d := Z.pos (digits2_pos m)) in *.
  unfold SF_minus_one, SFmul.
  change (Z.pos (4503599627370496 * m)) with (Z.pos (Nat.iter 52 xO m)).
  assert (fexp 53 1024 (d + Z.of_nat 52 + (-52 + e)) - (-52 + e) = 52) as Hn.
  { replace (d + Z.of_nat 52 + (-52 + e)) with (d + e) by lia. lia. }
  rewrite binary_round_aux_low_zeros; fold d; rewrite Hn; [|lia].
  destruct (Z.leb_spec (-52 + e + 52) (1024 - 53)); [|lia].
  replace (-52 + e + 52) with e by lia. by destruct s.
Qed.

Lemma SF64mul_minus_one v :
  SpecFloat.valid_binary 53 1024 v = true →
  SFmul 53 1024 SF_minus_one v = SFopp v.
Proof.
  intros Hv. destruct v as [[]|[]| |s m e]; try reflexivity.
  by apply SF64mul_minus_one_finite.
Qed.

Lemma SFopp_involutive v : SFopp (SFopp v) = v.
Proof. destruct v as [s|s| |s m e]; simpl; by rewrite ?negb_involutive. Qed.

Lemma mul_minus_one_opp (v : PrimFloat.float) : (-1 * v)%float = (- v)%float.
Proof.
  apply Prim2SF_inj. rewrite mul_spec, opp_spec, Prim2SF_minus_one.
  apply SF64mul_minus_one, Prim2SF_valid.
Qed.

(** Two products by [-1.0] restore every binary64 number. *)
Lemma double_neg1_mul_involutive (v : fval (Fdtype := double)) :
  neg1_mul (neg1_mul v) = v.
Proof.
  simpl. rewrite !mul_minus_one_opp. apply Prim2SF_inj. rewrite !opp_spec.
  apply SFopp_involutive.
Qed.

(** On a finite binary32 number the product by [-1.0], taken in binary64
    and converted back, is exact. *)
Lemma float32_neg1_mul_finite s m e :
  bounded 24 128 m e = true →
  binary32_of_binary64 (SFmul 53 1024 SF_minus_one (S754_finite s m e))
  = S754_finite (negb s) m e.
Proof.
  unfold bounded, canonical_mantissa. intros [Hc He]%andb_prop.
  apply Z.eqb_eq in Hc. apply Z.leb_le in He.
  set (d := Z.pos (digits2_pos m)) in *.
  assert (1 <= d <= 24 ∧ -149 <= e) as (Hd & Hemin).
  { unfold fexp, emin in Hc. unfold d in *. lia. }
  unfold SF_minus_one, SFmul.
  change (Z.pos (4503599627370496 * m)) with (Z.pos (Nat.iter 52 xO m)).
  rewrite binary_round_aux_low_zeros; fold d.
  2:{ unfold fexp, emin. lia. }
  replace (fexp 53 1024 (d + Z.of_nat 52 + (-52 + e)) - (-52 + e)) with (d - 1)
    by (unfold fexp, emin; lia).
  destruct (Z.leb_spec (-52 + e + (d - 1)) (1024 - 53)); [|lia].
  unfold binary32_of_binary64, binary_round, shl_align.
  rewrite digits2_pos_xO_iter. fold d.
  replace (d + Z.of_nat (52 - Z.to_nat (d - 1)) + (-52 + e + (d - 1)))
    with (d + e) by lia.
  rewrite Hc.
  destruct (e - (-52 + e + (d - 1))) as [|p|p] eqn:Hdiff; try lia.
  rewrite binary_round_aux_low_zeros; fold d.
  2:{ replace (d + Z.of_nat (52 - Z.to_nat (d - 1)) + (-52 + e + (d - 1)))
        with (d + e) by lia.
      rewrite Hc. lia. }
  replace (d + Z.of_nat (52 - Z.to_nat (d - 1)) + (-52 + e + (d - 1)))
    with (d + e) by lia.
  rewrite Hc.
  replace (-52 + e + (d - 1) + (e - (-52 + e + (d - 1)))) with e by lia.
  destruct (Z.leb_spec e (128 - 24)); [|lia].
  replace (52 - Z.to_nat (d - 1) - Z.to_nat (e - (-52 + e + (d - 1))))%nat
    with 0%nat by lia.
  by destruct s.
Qed.

Lemma float32_neg1_mul (v : spec_float) :
  SpecFloat.valid_binary 24 128 v = true →
  neg1_mul (Fdtype := float32) v = SFopp v.
Proof.
  intros Hv. destruct v as [[]|[]| |s m e]; try reflexivity.
  by apply float32_neg1_mul_finite.
Qed.

(** Two products by [-1.0] restore every binary32 number. *)
Lemma float32_neg1_mul_involutive (v : spec_float) :
  SpecFloat.valid_binary 24 128 v = true →
  neg1_mul (Fdtype := float32) (neg1_mul (Fdtype := float32) v) = v.
Proof.
  intros Hv. rewrite (float32_neg1_mul v Hv).
  rewrite float32_neg1_mul by by destruct v.
  apply SFopp_involutive.
Qed.

(** ** Reads and writes *)

Lemma read_Some {A} (a : list A) i v :
  read a i = Some v ↔ 0 <= i ∧ a !! Z.to_nat i = Some v.
Proof.
  unfold read. destruct (Z.leb_spec 0 i); split; intros; try tauto;
    try discriminate; lia.
Qed.

Lemma read_in_bounds {A} (a : list A) i :
  0 <= i < Z.of_nat (length a) → is_Some (read a i).
Proof.
  intros Hi. unfold read. destruct (Z.leb_spec 0 i); [|lia].
  apply lookup_lt_is_Some. lia.
Qed.

Lemma write_Some {A} (a : list A) i v :
  0 <= i < Z.of_nat (length a) → write a i v = Some (<[Z.to_nat i := v]> a).
Proof.
  intros Hi. unfold write.
  destruct (Z.leb_spec 0 i); [|lia]. destruct (Z.ltb_spec i (Z.of_nat (length a))); [|lia].
  reflexivity.
Qed.

Lemma read_write_eq {A} (a a' : list A) i v :
  write a i v = Some a' → read a' i = Some v.
Proof.
  unfold write, read.
  destruct (Z.leb_spec 0 i); simpl; [|discriminate].
  destruct (Z.ltb_spec i (Z.of_nat (length a))); [|discriminate].
  intros [= <-]. apply list_lookup_insert_eq. lia.
Qed.

Lemma read_write_ne {A} (a a' : list A) i j v :
  write a i v = Some a' → i ≠ j → read a' j = read a j.
Proof.
  unfold write, read.
  destruct (Z.leb_spec 0 i); simpl; [|discriminate].
  destruct (Z.ltb_spec i (Z.of_nat (length a))); [|discriminate].
  intros [= <-] Hne. destruct (Z.leb_spec 0 j); [|reflexivity].
  apply list_lookup_insert_ne. lia.
Qed.

(** ** The monad *)

Lemma M_left_id {A B} (x : A) (f : A → M B) : mret x ≫= f = f x.
Proof. unfold mbind, M_bind, mret, M_ret. simpl. by destruct (f x). Qed.

Lemma M_bind_ext {A B} (m : M A) (f g : A → M B) :
  (∀ x, f x = g x) → m ≫= f = m ≫= g.
Proof.
  intros Hfg. unfold mbind, M_bind. destruct m as [l [x|]]; simpl; [|done].
  by rewrite Hfg.
Qed.

Lemma outcome_bind {A B} (m : M A) (f : A → M B) :
  outcome (m ≫= f) = outcome m ≫= (λ x, outcome (f x)).
Proof. unfold outcome, mbind at 1, M_bind. by destruct m as [l [x|]]. Qed.

Lemma accesses_bind_Some {A B} (m : M A) (f : A → M B) x :
  outcome m = Some x → accesses (m ≫= f) = accesses m ++ accesses (f x).
Proof. unfold outcome, accesses, mbind, M_bind. by intros ->. Qed.

Lemma accesses_bind_None {A B} (m : M A) (f : A → M B) :
  outcome m = None → accesses (m ≫= f) = accesses m.
Proof. unfold outcome, accesses, mbind, M_bind. by intros ->. Qed.

(** ** Launches *)

Section Launch.
Context {S : Type} (body : Z → S → M S).

Lemma run_threads_cons tid rest st :
  run_threads body (tid :: rest) st = body tid st ≫= run_threads body rest.
Proof. reflexivity. Qed.

(** Threads past the declared count can be dropped from a schedule. *)
Lemma run_threads_inert N sched st :
  inert_from body N →
  run_threads body sched st = run_threads body (filter (λ t, t < N) sched) st.
Proof.
  intros Hin. revert st. induction sched as [|t rest IH]; intros st; [done|].
  destruct (decide (t < N)) as [Hlt|Hge].
  - rewrite filter_cons_True by done. rewrite !run_threads_cons.
    by apply M_bind_ext.
  - rewrite filter_cons_False by done. rewrite run_threads_cons.
    rewrite Hin by lia. rewrite M_left_id. apply IH.
Qed.
End Launch.

(** ** The identifiers of a grid *)

Lemma block_tids (blockDim blockIdx : nat) :
  Z.of_nat ((blockIdx + 1) * blockDim) <= INT_MAX + 1 →
  map (λ t, global_tid (Z.of_nat blockDim) (Z.of_nat blockIdx) (Z.of_nat t))
      (seq 0 blockDim)
  = seqZ (Z.of_nat (blockIdx * blockDim)) (Z.of_nat blockDim).
Proof.
  intros Hle. unfold seqZ. rewrite Nat2Z.id.
  apply map_ext_in. intros t Ht%in_seq.
  unfold global_tid. rewrite to_int_in_range; [lia|].
  unfold in_range, INT_MIN, INT_MAX in *. nia.
Qed.

(** A grid of at most [2^31] threads numbers them [0, 1, ...], each once. *)
Lemma grid_tids_seqZ (gridDim blockDim : nat) :
  Z.of_nat (gridDim * blockDim) <= INT_MAX + 1 →
  grid_tids gridDim blockDim = seqZ 0 (Z.of_nat (gridDim * blockDim)).
Proof.
  unfold grid_tids. induction gridDim as [|g IH]; intros Hle; [done|].
  rewrite seq_S, flat_map_app. simpl. rewrite app_nil_r.
  rewrite IH by lia. rewrite block_tids by (rewrite Nat.add_1_r; lia).
  replace (Z.of_nat (blockDim + g * blockDim))
    with (Z.of_nat (g * blockDim) + Z.of_nat blockDim) by lia.
  rewrite seqZ_app by lia. by rewrite Z.add_0_l.
Qed.

Lemma elem_of_grid_tids (gridDim blockDim : nat) tid :
  Z.of_nat (gridDim * blockDim) <= INT_MAX + 1 →
  tid ∈ grid_tids gridDim blockDim ↔ 0 <= tid < Z.of_nat (gridDim * blockDim).
Proof. intros Hle. rewrite grid_tids_seqZ by done. rewrite elem_of_seqZ. lia. Qed.

Lemma filter_lt_seqZ (n m : Z) :
  0 <= n <= m → filter (λ t, t < n) (seqZ 0 m) = seqZ 0 n.
Proof.
  intros Hnm. replace m with (n + (m - n)) by lia.
  rewrite seqZ_app by lia. rewrite filter_app.
  assert (filter (λ t, t < n) (seqZ 0 n) = seqZ 0 n) as ->.
  { generalize (seqZ 0 n), (λ t, proj1 (elem_of_seqZ 0 n t)).
    induction l as [|x l IH]; intros Hl; [done|].
    rewrite filter_cons_True by (apply Hl; left; lia || constructor).
    f_equal. apply IH. intros t Ht. apply Hl. by right. }
  assert (filter (λ t, t < n) (seqZ (0 + n) (m - n)) = []) as ->.
  { generalize (seqZ (0 + n) (m - n)), (λ t, proj1 (elem_of_seqZ (0 + n) (m - n) t)).
    induction l as [|x l IH]; intros Hl; [done|].
    rewrite filter_cons_False.
    - apply IH. intros t Ht. apply Hl. by right.
    - specialize (Hl x (list_elem_of_here _ _)). lia. }
  by rewrite app_nil_r.
Qed.

(** Launching more threads than the declared count changes nothing. *)
Lemma launch_inert {S} (body : Z → S → M S) (N : Z) (gridDim blockDim : nat) :
  inert_from body N →
  0 <= N <= Z.of_nat (gridDim * blockDim) →
  Z.of_nat (gridDim * blockDim) <= INT_MAX + 1 →
  extra_threads_inert body N gridDim blockDim.
Proof.
  intros Hin HN Hle.
  assert (grid_tids 1 (Z.to_nat N) = seqZ 0 N) as Hexact.
  { rewrite grid_tids_seqZ by lia. f_equal. lia. }
  split; [exact Hin|]. split.
  - intros st. unfold launch.
    rewrite (run_threads_inert body N (grid_tids gridDim blockDim)) by done.
    rewrite Hexact, grid_tids_seqZ by lia. by rewrite filter_lt_seqZ by lia.
  - intros sched st Hsched. exists (filter (λ t, t < N) sched). split.
    + unfold schedule_of in *. rewrite Hsched, Hexact, grid_tids_seqZ by lia.
      by rewrite filter_lt_seqZ by lia.
    + by apply run_threads_inert.
Qed.

(** ** Launches of a kernel whose active threads each write one slot *)

Section Scatter.
Context {A : Type}.
Variable body : Z → list A → M (list A).
Variable N : Z.
(** The slot and the value thread [tid] writes. *)
Variable eff : Z → option (Z * A).
Hypothesis body_outcome : ∀ tid D,
  outcome (body tid D)
  = if tid >=? N then Some D else eff tid ≫= (λ '(q, v), write D q v).

(** The launch does not fault; a slot some thread writes ends with the
    value of one of the threads that write it, and any other slot keeps
    its value. *)
Lemma scatter_launch sched D0 :
  (∀ i, i ∈ sched → i < N →
        ∃ q v, eff i = Some (q, v) ∧ 0 <= q < Z.of_nat (length D0)) →
  ∃ D', outcome (run_threads body sched D0) = Some D'
      ∧ length D' = length D0
      ∧ (∀ i q v, i ∈ sched → i < N → eff i = Some (q, v) →
            ∃ j v', j ∈ sched ∧ j < N ∧ eff j = Some (q, v')
                    ∧ read D' q = Some v')
      ∧ (∀ q, (∀ i v, i ∈ sched → i < N → eff i ≠ Some (q, v)) →
              read D' q = read D0 q).
Proof.
  revert D0. induction sched as [|t rest IH]; intros D0 Hok.
  { exists D0. split; [done|]. split; [done|]. split; [|done].
    intros i q v Hi. by apply elem_of_nil in Hi. }
  rewrite run_threads_cons, outcome_bind, body_outcome.
  destruct (Z.geb_spec t N) as [Hge|Hlt].
  - simpl. destruct (IH D0) as (D' & Hrun & Hlen & Hset & Hframe).
    { intros i Hi. apply Hok. by right. }
    exists D'. split; [done|]. split; [done|]. split.
    + intros i q v [->|Hi]%elem_of_cons Hlt Hiq; [lia|].
      destruct (Hset i q v) as (j & v' & Hj & ?); [done..|].
      exists j, v'. split; [by right|done].
    + intros q Hq. apply Hframe. intros i v Hi. apply Hq. by right.
  - destruct (Hok t) as (q0 & v0 & Heff & Hq0); [by left|done|].
    rewrite Heff. simpl.
    pose proof (write_Some D0 q0 v0 Hq0) as Hw. rewrite Hw. simpl.
    set (D1 := <[Z.to_nat q0 := v0]> D0) in *.
    assert (length D1 = length D0) as Hlen1 by apply length_insert.
    destruct (IH D1) as (D' & Hrun & Hlen & Hset & Hframe).
    { intros i Hi Hlt'. rewrite Hlen1. apply Hok; [by right|done]. }
    exists D'. split; [done|]. split; [congruence|]. split.
    + intros i q v Hi Hi' Hiq.
      destruct (decide (Exists (λ j, j < N ∧ fst <$> eff j = Some q) rest))
        as [Hex|Hnex].
      * apply Exists_exists in Hex as (j & Hj & HjN & Hjq).
        destruct (eff j) as [[q' v']|] eqn:Hej; [|done].
        simpl in Hjq. injection Hjq as ->.
        destruct (Hset j q v') as (j' & v'' & Hj' & ?); [done..|].
        exists j', v''. split; [by right|done].
      * assert (i = t) as ->.
        { apply elem_of_cons in Hi as [->|Hi]; [done|].
          exfalso. apply Hnex, Exists_exists. exists i. by rewrite Hiq. }
        exists t, v. split; [by left|]. split; [done|]. split; [done|].
        rewrite Heff in Hiq. injection Hiq as <- <-.
        rewrite Hframe; [by eapply read_write_eq|].
        intros j v' Hj HjN Hjq. apply Hnex, Exists_exists.
        exists j. by rewrite Hjq.
    + intros q Hq. rewrite Hframe.
      * eapply read_write_ne; [done|]. intros ->. by eapply (Hq t); [left|..].
      * intros i v Hi. apply Hq. by right.
Qed.
End Scatter.

(** ** Kernels as segment packs *)

Section Launch_ext.
Context {S : Type} (body body' : Z → S → M S).

Lemma run_threads_ext sched st :
  (∀ tid st, tid ∈ sched → body tid st = body' tid st) →
  run_threads body sched st = run_threads body' sched st.
Proof.
  revert st. induction sched as [|t rest IH]; intros st Heq; [done|].
  rewrite !run_threads_cons, Heq by left.
  apply M_bind_ext. intros st'. apply IH. intros tid st'' Hin.
  apply Heq. by right.
Qed.
End Launch_ext.

Section Segment_facts.
Context {fd : Fdtype}.

Lemma pack_scalar_segments (A : list fval) (I : list Z) n o tid B :
  pack_scalar A I n o tid B
  = pack_segments n (Segment "i_indexes" "i_sourceArray" A I n false)
                  (segY [] [] 0 false) o tid B.
Proof.
  unfold pack_scalar, pack_segments. simpl.
  destruct (Z.geb_spec tid n) as [|Hlt]; [done|].
  destruct (Z.ltb_spec tid n); [done|lia].
Qed.

Lemma pack_vector_segments (X Y : list fval) (IX IY : list Z) nX nY o r s1 s2 tid B :
  rotation_segments X Y IX IY nX nY r = Some (s1, s2) →
  pack_vector X Y IX IY nX nY o r tid B
  = pack_segments (int_add nX nY) s1 s2 o tid B.
Proof.
  unfold rotation_segments, pack_vector, pack_segments.
  destruct (tid >=? int_add nX nY); [by repeat case_match|].
  repeat (case_match; [intros [= <- <-]; reflexivity|]). done.
Qed.

Lemma gather_outcome (s : segment) pos slot (B : list fval) :
  outcome (gather s pos slot B) = seg_at s pos ≫= write B slot.
Proof.
  unfold gather, seg_at, gathered, load, store. rewrite !outcome_bind. simpl.
  destruct (read (seg_indexes s) pos) as [k|]; simpl; [|done].
  rewrite outcome_bind. simpl. by destruct (read (seg_source s) k).
Qed.

Lemma seg_at_ok (s : segment) pos :
  seg_ok s → 0 <= pos < seg_n s →
  ∃ k v, read (seg_indexes s) pos = Some k ∧ read (seg_source s) k = Some v
       ∧ seg_at s pos = Some (seg_value s v).
Proof.
  intros [Hlen Hall] Hpos.
  destruct (read_in_bounds (seg_indexes s) pos) as [k Hk]; [lia|].
  assert (0 <= k < Z.of_nat (length (seg_source s))) as Hkr.
  { apply read_Some in Hk as [_ Hk]. rewrite Forall_lookup in Hall. eauto. }
  destruct (read_in_bounds (seg_source s) k Hkr) as [v Hv].
  exists k, v. unfold seg_at, gathered. rewrite Hk. simpl. rewrite Hv. done.
Qed.
End Segment_facts.

(** ** A launch of a segment pack *)

Section Pack_launch.
Context {fd : Fdtype}.
Variables (N : Z) (s1 s2 : segment) (o : Z).
Hypothesis HN : N = seg_n s1 + seg_n s2.
Hypothesis Hs1 : seg_ok s1.
Hypothesis Hs2 : seg_ok s2.
Hypothesis Ho : 0 <= o.
Hypothesis HoN : o + N <= INT_MAX + 1.

(** The slot and the value of thread [tid]. *)
Let eff (tid : Z) : option (Z * fval) :=
  v ← (if tid <? seg_n s1 then seg_at s1 tid
       else seg_at s2 (int_sub tid (seg_n s1)));
  Some (int_add o tid, v).

Lemma pack_segments_outcome tid (B : list fval) :
  outcome (pack_segments N s1 s2 o tid B)
  = if tid >=? N then Some B else eff tid ≫= (λ '(q, v), write B q v).
Proof.
  unfold pack_segments, eff. destruct (tid >=? N); [done|].
  destruct (tid <? seg_n s1); rewrite gather_outcome;
    by match goal with |- context [seg_at ?s ?p] => destruct (seg_at s p) end.
Qed.

Lemma seg_n_nonneg (s : segment) : seg_ok s → 0 <= seg_n s.
Proof. intros [<- _]. lia. Qed.

Lemma pack_eff_first i :
  0 <= i < seg_n s1 →
  ∃ v, seg_at s1 i = Some v ∧ eff i = Some (o + i, v).
Proof.
  intros Hi. pose proof (seg_n_nonneg s2 Hs2).
  destruct (seg_at_ok s1 i Hs1 Hi) as (k & v & _ & _ & Hat).
  eexists. split; [done|]. unfold eff.
  destruct (Z.ltb_spec i (seg_n s1)); [|lia]. rewrite Hat. simpl.
  rewrite int_add_exact; [done|]. unfold in_range, INT_MIN, INT_MAX in *. lia.
Qed.

Lemma pack_eff_second i :
  0 <= i < seg_n s2 →
  ∃ v, seg_at s2 i = Some v ∧ eff (seg_n s1 + i) = Some (o + seg_n s1 + i, v).
Proof.
  intros Hi. pose proof (seg_n_nonneg s1 Hs1).
  destruct (seg_at_ok s2 i Hs2 Hi) as (k & v & _ & _ & Hat).
  eexists. split; [done|]. unfold eff.
  destruct (Z.ltb_spec (seg_n s1 + i) (seg_n s1)); [lia|].
  rewrite int_sub_exact by (unfold in_range, INT_MIN, INT_MAX in *; lia).
  replace (seg_n s1 + i - seg_n s1) with i by lia. rewrite Hat. simpl.
  rewrite int_add_exact by (unfold in_range, INT_MIN, INT_MAX in *; lia).
  do 2 f_equal. lia.
Qed.

Lemma pack_eff_slot i :
  0 <= i < N → ∃ v, eff i = Some (o + i, v).
Proof.
  intros Hi. destruct (Z.lt_ge_cases i (seg_n s1)).
  - destruct (pack_eff_first i) as (v & _ & ?); [lia|]. eauto.
  - destruct (pack_eff_second (i - seg_n s1)) as (v & _ & Heff); [lia|].
    exists v. replace (seg_n s1 + (i - seg_n s1)) with i in Heff by lia.
    rewrite Heff. do 2 f_equal. lia.
Qed.

Lemma pack_segments_launch sched (B : list fval) :
  o + N <= Z.of_nat (length B) →
  (∀ t, t ∈ sched → 0 <= t) →
  covers sched N →
  ∃ B', outcome (run_threads (pack_segments N s1 s2 o) sched B) = Some B'
      ∧ length B' = length B
      ∧ (∀ i, 0 <= i < seg_n s1 → is_Some (seg_at s1 i)
               ∧ read B' (o + i) = seg_at s1 i)
      ∧ (∀ i, 0 <= i < seg_n s2 → is_Some (seg_at s2 i)
               ∧ read B' (o + seg_n s1 + i) = seg_at s2 i)
      ∧ (∀ p, ¬ (o <= p < o + N) → read B' p = read B p).
Proof.
  intros HB Hpos Hcov.
  pose proof (seg_n_nonneg s1 Hs1). pose proof (seg_n_nonneg s2 Hs2).
  destruct (scatter_launch _ N eff pack_segments_outcome sched B)
    as (B' & Hrun & Hlen & Hset & Hframe).
  { intros i Hi HiN. destruct (pack_eff_slot i) as [v Hv]; [split; auto|].
    exists (o + i), v. split; [done|]. specialize (Hpos i Hi). lia. }
  assert (∀ i v, 0 <= i < N → eff i = Some (o + i, v) →
                 read B' (o + i) = Some v) as Hget.
  { intros i v Hi Heff.
    destruct (Hset i (o + i) v) as (j & v' & Hj & HjN & Hjq & Hrd);
      [apply Hcov; lia|lia|done|].
    destruct (pack_eff_slot j) as [w Hw]; [split; auto|].
    assert (i = j) as <-.
    { rewrite Hw in Hjq. injection Hjq as Hq _. lia. }
    congruence. }
  exists B'. split; [done|]. split; [done|]. split; [|split].
  - intros i Hi. destruct (pack_eff_first i Hi) as (v & Hat & Heff).
    rewrite Hat. split; [done|]. apply Hget; [lia|done].
  - intros i Hi. destruct (pack_eff_second i Hi) as (v & Hat & Heff).
    rewrite Hat. split; [done|].
    replace (o + seg_n s1 + i) with (o + (seg_n s1 + i)) in * by lia.
    apply Hget; [lia|done].
  - intros p Hp. apply Hframe. intros i v Hi HiN Heff.
    destruct (pack_eff_slot i) as [w Hw]; [split; auto|].
    rewrite Hw in Heff. injection Heff as <- _. specialize (Hpos i Hi). lia.
Qed.
End Pack_launch.

(** ** Schedules *)

Lemma schedule_elem_of (gridDim blockDim : nat) sched tid :
  Z.of_nat (gridDim * blockDim) <= INT_MAX + 1 →
  schedule_of gridDim blockDim sched →
  tid ∈ sched ↔ 0 <= tid < Z.of_nat (gridDim * blockDim).
Proof.
  unfold schedule_of. intros Hle Hperm. rewrite Hperm.
  by apply elem_of_grid_tids.
Qed.

Lemma schedule_nonneg (gridDim blockDim : nat) sched :
  Z.of_nat (gridDim * blockDim) <= INT_MAX + 1 →
  schedule_of gridDim blockDim sched →
  ∀ t, t ∈ sched → 0 <= t.
Proof. intros Hle Hs t Ht. by eapply schedule_elem_of in Ht as [? _]. Qed.

Lemma schedule_covers (gridDim blockDim : nat) sched N :
  N <= Z.of_nat (gridDim * blockDim) <= INT_MAX + 1 →
  schedule_of gridDim blockDim sched →
  covers sched N.
Proof.
  intros [HN Hle] Hs i Hi. eapply schedule_elem_of; [done..|]. lia.
Qed.

Lemma schedule_grid (gridDim blockDim : nat) :
  schedule_of gridDim blockDim (grid_tids gridDim blockDim).
Proof. unfold schedule_of. reflexivity. Qed.

(** ** Launches of the pack kernels *)

Section Pack_kernels.
Context {fd : Fdtype}.

Lemma seg_at_copy names nameA (A : list fval) (I : list Z) n i :
  seg_at (Segment names nameA A I n false) i = gathered A I i.
Proof. unfold seg_at, seg_value. simpl. by destruct (gathered A I i). Qed.

Lemma seg_at_negate names nameA (A : list fval) (I : list Z) n i :
  seg_at (Segment names nameA A I n true) i = neg1_mul <$> gathered A I i.
Proof. unfold seg_at, seg_value. simpl. by destruct (gathered A I i). Qed.

Lemma pack_scalar_launch (A : list fval) (I : list Z) n o (B : list fval) sched :
  Z.of_nat (length I) = n →
  Forall (λ k, 0 <= k < Z.of_nat (length A)) I →
  0 <= o → o + n <= Z.of_nat (length B) → o + n <= INT_MAX + 1 →
  (∀ t, t ∈ sched → 0 <= t) → covers sched n →
  ∃ B', outcome (run_threads (pack_scalar A I n o) sched B) = Some B'
      ∧ length B' = length B
      ∧ (∀ i, 0 <= i < n → is_Some (gathered A I i)
               ∧ read B' (o + i) = gathered A I i)
      ∧ (∀ p, ¬ (o <= p < o + n) → read B' p = read B p).
Proof.
  intros Hlen Hall Ho HoB HoN Hpos Hcov.
  rewrite (run_threads_ext _
    (pack_segments n (Segment "i_indexes" "i_sourceArray" A I n false)
                   (segY [] [] 0 false) o))
    by (intros; apply pack_scalar_segments).
  destruct (pack_segments_launch n (Segment "i_indexes" "i_sourceArray" A I n false)
              (segY [] [] 0 false) o) with (sched := sched) (B := B)
    as (B' & Hrun & HlenB & Hfirst & _ & Hframe);
    try done; simpl; try lia.
  exists B'. split; [done|]. split; [done|]. split; [|done].
  intros i Hi. specialize (Hfirst i Hi). by rewrite seg_at_copy in Hfirst.
Qed.

Lemma rotation_segments_ok (X Y : list fval) (IX IY : list Z) nX nY r s1 s2 :
  rotation_segments X Y IX IY nX nY r = Some (s1, s2) →
  Z.of_nat (length IX) = nX →
  Forall (λ k, 0 <= k < Z.of_nat (length X)) IX →
  Z.of_nat (length IY) = nY →
  Forall (λ k, 0 <= k < Z.of_nat (length Y)) IY →
  seg_ok s1 ∧ seg_ok s2 ∧ nX + nY = seg_n s1 + seg_n s2.
Proof.
  unfold rotation_segments. intros Hr HX HIX HY HIY.
  repeat case_match; try discriminate; injection Hr as <- <-;
    unfold seg_ok; simpl; (split; [done|split; [done|lia]]).
Qed.

Lemma pack_vector_launch (X Y : list fval) (IX IY : list Z) nX nY o r s1 s2
    (B : list fval) sched :
  rotation_segments X Y IX IY nX nY r = Some (s1, s2) →
  Z.of_nat (length IX) = nX →
  Forall (λ k, 0 <= k < Z.of_nat (length X)) IX →
  Z.of_nat (length IY) = nY →
  Forall (λ k, 0 <= k < Z.of_nat (length Y)) IY →
  nX + nY <= INT_MAX →
  0 <= o → o + nX + nY <= Z.of_nat (length B) → o + nX + nY <= INT_MAX + 1 →
  (∀ t, t ∈ sched → 0 <= t) → covers sched (nX + nY) →
  ∃ B', outcome (run_threads (pack_vector X Y IX IY nX nY o r) sched B) = Some B'
      ∧ length B' = length B
      ∧ (∀ i, 0 <= i < seg_n s1 → is_Some (seg_at s1 i)
               ∧ read B' (o + i) = seg_at s1 i)
      ∧ (∀ i, 0 <= i < seg_n s2 → is_Some (seg_at s2 i)
               ∧ read B' (o + seg_n s1 + i) = seg_at s2 i)
      ∧ (∀ p, ¬ (o <= p < o + nX + nY) → read B' p = read B p).
Proof.
  intros Hr HX HIX HY HIY HN Ho HoB HoN Hpos Hcov.
  destruct (rotation_segments_ok _ _ _ _ _ _ _ _ _ Hr HX HIX HY HIY)
    as (Hs1 & Hs2 & Hsum).
  assert (int_add nX nY = nX + nY) as Hadd.
  { apply int_add_exact. unfold in_range, INT_MIN, INT_MAX in *. lia. }
  rewrite (run_threads_ext _ (pack_segments (nX + nY) s1 s2 o))
    by (intros; rewrite <- Hadd; by apply pack_vector_segments).
  destruct (pack_segments_launch (nX + nY) s1 s2 o) with (sched := sched) (B := B)
    as (B' & Hrun & HlenB & Hfirst & Hsecond & Hframe); try done; try lia.
  exists B'. split; [done|]. split; [done|]. split; [done|]. split; [done|].
  intros p Hp. apply Hframe. lia.
Qed.
End Pack_kernels.

(** ** One thread *)

(** Evaluation of a thread whose reads and write are known. *)
Ltac run_thread :=
  unfold load, store, mbind, M_bind, mret, M_ret; simpl;
  repeat match goal with
         | H : read _ _ = Some _ |- _ => rewrite H; simpl
         | H : write _ _ _ = Some _ |- _ => rewrite H; simpl
         end.

Section Threads.
Context {fd : Fdtype}.

Lemma pack_scalar_idle (A : list fval) (I : list Z) n o :
  inert_from (pack_scalar A I n o) n.
Proof.
  intros tid B Hge. unfold pack_scalar.
  destruct (Z.geb_spec tid n); [done|lia].
Qed.

Lemma unpack_scalar_idle (B : list fval) (I : list Z) n o :
  inert_from (unpack_scalar B I n o) n.
Proof.
  intros tid D Hge. unfold unpack_scalar.
  destruct (Z.geb_spec tid n); [done|lia].
Qed.

Lemma pack_vector_idle (X Y : list fval) (IX IY : list Z) nX nY o r :
  inert_from (pack_vector X Y IX IY nX nY o r) (int_add nX nY).
Proof.
  intros tid B Hge. unfold pack_vector.
  destruct (Z.geb_spec tid (int_add nX nY)); [done|lia].
Qed.

Lemma unpack_vector_idle (B : list fval) (IX IY : list Z) nX nY o :
  nX <= int_add nX nY →
  inert_from (unpack_vector B IX IY nX nY o) (int_add nX nY).
Proof.
  intros Hle tid [DX DY] Hge. unfold unpack_vector.
  destruct (Z.ltb_spec tid nX); [lia|].
  destruct (Z.ltb_spec tid (int_add nX nY)); [lia|done].
Qed.

Lemma pack_scalar_active (A : list fval) (I : list Z) n o i k v (B : list fval) :
  i < n → read I i = Some k → read A k = Some v →
  0 <= int_add o i < Z.of_nat (length B) →
  pack_scalar A I n o i B
  = ([Rd "i_indexes" i; Rd "i_sourceArray" k;
      Wr "o_destinationBuffer" (int_add o i)],
     Some (<[Z.to_nat (int_add o i) := v]> B)).
Proof.
  intros Hi Hk Hv Hslot. unfold pack_scalar.
  destruct (Z.geb_spec i n); [lia|].
  pose proof (write_Some B _ v Hslot). by run_thread.
Qed.

Lemma unpack_scalar_active (B : list fval) (I : list Z) n o i k v (D : list fval) :
  i < n → read B (int_add o i) = Some v → read I i = Some k →
  0 <= k < Z.of_nat (length D) →
  unpack_scalar B I n o i D
  = ([Rd "i_sourceBuffer" (int_add o i); Rd "i_indexes" i;
      Wr "o_destinationArray" k],
     Some (<[Z.to_nat k := v]> D)).
Proof.
  intros Hi Hv Hk Hslot. unfold unpack_scalar.
  destruct (Z.geb_spec i n); [lia|].
  pose proof (write_Some D _ v Hslot). by run_thread.
Qed.

Lemma unpack_vector_X (B : list fval) (IX IY : list Z) nX nY o tid k v
    (DX DY : list fval) :
  tid < nX → read B (int_add o tid) = Some v → read IX tid = Some k →
  0 <= k < Z.of_nat (length DX) →
  unpack_vector B IX IY nX nY o tid (DX, DY)
  = ([Rd "i_sourceBuffer" (int_add o tid); Rd "i_indexesX" tid;
      Wr "o_destinationArrayX" k],
     Some (<[Z.to_nat k := v]> DX, DY)).
Proof.
  intros Hi Hv Hk Hslot. unfold unpack_vector.
  destruct (Z.ltb_spec tid nX); [|lia].
  pose proof (write_Some DX _ v Hslot). by run_thread.
Qed.

Lemma unpack_vector_Y (B : list fval) (IX IY : list Z) nX nY o tid k v
    (DX DY : list fval) :
  nX <= tid < int_add nX nY →
  read B (int_add o tid) = Some v → read IY (int_sub tid nX) = Some k →
  0 <= k < Z.of_nat (length DY) →
  unpack_vector B IX IY nX nY o tid (DX, DY)
  = ([Rd "i_sourceBuffer" (int_add o tid); Rd "i_indexesY" (int_sub tid nX);
      Wr "o_destinationArrayY" k],
     Some (DX, <[Z.to_nat k := v]> DY)).
Proof.
  intros Hi Hv Hk Hslot. unfold unpack_vector.
  destruct (Z.ltb_spec tid nX); [lia|].
  destruct (Z.ltb_spec tid (int_add nX nY)); [|lia].
  pose proof (write_Some DY _ v Hslot). by run_thread.
Qed.

Lemma index_in_bounds (I : list Z) (len : nat) i :
  Forall (λ k, 0 <= k < Z.of_nat len) I → 0 <= i < Z.of_nat (length I) →
  ∃ k, read I i = Some k ∧ 0 <= k < Z.of_nat len.
Proof.
  intros Hall Hi. destruct (read_in_bounds I i Hi) as [k Hk].
  exists k. split; [done|]. apply read_Some in Hk as [_ Hk].
  rewrite Forall_lookup in Hall. eauto.
Qed.

Lemma gathered_in_bounds (A : list fval) (I : list Z) i :
  Forall (λ k, 0 <= k < Z.of_nat (length A)) I → 0 <= i < Z.of_nat (length I) →
  ∃ k v, read I i = Some k ∧ read A k = Some v ∧ gathered A I i = Some v.
Proof.
  intros Hall Hi. destruct (index_in_bounds I _ i Hall Hi) as (k & Hk & Hkr).
  destruct (read_in_bounds A k Hkr) as [v Hv].
  exists k, v. unfold gathered. rewrite Hk. done.
Qed.
End Threads.

(** ** Launches of scalar unpack *)

Section Unpack_launch.
Context {fd : Fdtype}.
Variables (source : list fval) (index : list Z) (n o : Z).

(** The slot and the value of thread [tid]. *)
Let eff (tid : Z) : option (Z * fval) :=
  v ← read source (int_add o tid); k ← read index tid; Some (k, v).

Lemma unpack_scalar_outcome tid (D : list fval) :
  outcome (unpack_scalar source index n o tid D)
  = if tid >=? n then Some D else eff tid ≫= (λ '(q, v), write D q v).
Proof.
  unfold unpack_scalar, eff, load, store. destruct (tid >=? n); [done|].
  rewrite outcome_bind. simpl.
  destruct (read source (int_add o tid)) as [v|]; simpl; [|done].
  rewrite outcome_bind. simpl. by destruct (read index tid).
Qed.

Hypothesis Hlen : Z.of_nat (length index) = n.
Hypothesis Ho : 0 <= o.
Hypothesis HoB : o + n <= Z.of_nat (length source).
Hypothesis HoN : o + n <= INT_MAX + 1.

Lemma unpack_eff_Some i :
  0 <= i < n →
  ∃ k v, read index i = Some k ∧ read source (o + i) = Some v
       ∧ eff i = Some (k, v).
Proof.
  intros Hi. destruct (read_in_bounds index i) as [k Hk]; [lia|].
  destruct (read_in_bounds source (o + i)) as [v Hv]; [lia|].
  exists k, v. split; [done|]. split; [done|]. unfold eff.
  rewrite int_add_exact by (unfold in_range, INT_MIN, INT_MAX in *; lia).
  rewrite Hv. simpl. by rewrite Hk.
Qed.

(** The launch does not fault; every slot named by the index list ends with
    the buffer element of one of the positions that name it, and every other
    slot keeps its value. *)
Lemma unpack_scalar_launch sched (D : list fval) :
  Forall (λ k, 0 <= k < Z.of_nat (length D)) index →
  (∀ t, t ∈ sched → 0 <= t) → covers sched n →
  ∃ D', outcome (run_threads (unpack_scalar source index n o) sched D) = Some D'
      ∧ length D' = length D
      ∧ (∀ i, 0 <= i < n →
           ∃ j k v, 0 <= j < n ∧ read index i = Some k ∧ read index j = Some k
                  ∧ read source (o + j) = Some v ∧ read D' k = Some v)
      ∧ (∀ q, q ∉ index → read D' q = read D q).
Proof.
  intros Hall Hpos Hcov.
  destruct (scatter_launch _ n eff unpack_scalar_outcome sched D)
    as (D' & Hrun & HlenD & Hset & Hframe).
  { intros i Hi HiN. destruct (unpack_eff_Some i) as (k & v & Hk & _ & Heff);
      [split; auto|].
    exists k, v. split; [done|]. apply read_Some in Hk as [_ Hk].
    rewrite Forall_lookup in Hall. eauto. }
  exists D'. split; [done|]. split; [done|]. split.
  - intros i Hi. destruct (unpack_eff_Some i Hi) as (k & v & Hk & _ & Heff).
    destruct (Hset i k v) as (j & v' & Hj & HjN & Hjq & Hrd);
      [by apply Hcov|lia|done|].
    destruct (unpack_eff_Some j) as (k' & w & Hk' & Hw & Heff'); [split; auto|].
    rewrite Heff' in Hjq. injection Hjq as -> ->.
    exists j, k, v'. specialize (Hpos j Hj). repeat split; auto; lia.
  - intros q Hq. apply Hframe. intros i v Hi HiN Heff.
    destruct (unpack_eff_Some i) as (k & w & Hk & _ & Heff'); [split; auto|].
    rewrite Heff' in Heff. injection Heff as -> _.
    apply Hq. apply read_Some in Hk as [_ Hk]. by eapply list_elem_of_lookup_2.
Qed.
End Unpack_launch.

(** ** The accesses of a pack *)

Section Pack_accesses.
Context {fd : Fdtype}.

Lemma run_threads_accesses {S} (body : Z → S → M S) (P : access → Prop) sched st :
  (∀ tid st, tid ∈ sched → Forall P (accesses (body tid st))) →
  Forall P (accesses (run_threads body sched st)).
Proof.
  revert st. induction sched as [|t rest IH]; intros st Hall; [constructor|].
  rewrite run_threads_cons.
  destruct (outcome (body t st)) as [st'|] eqn:Hout.
  - rewrite (accesses_bind_Some _ _ _ Hout). apply Forall_app. split.
    + apply Hall. by left.
    + apply IH. intros tid st'' Hin. apply Hall. by right.
  - rewrite (accesses_bind_None _ _ Hout). apply Hall. by left.
Qed.

Lemma gather_accesses (s : segment) pos slot (B : list fval) lo hi :
  seg_names_ok s → lo <= slot < hi →
  Forall (writes_within "o_destinationBuffer" lo hi) (accesses (gather s pos slot B)).
Proof.
  intros [Hi Hs] Hslot. unfold gather, load, store, mbind, M_bind, accesses. simpl.
  destruct (read (seg_indexes s) pos) as [k|]; simpl;
    [destruct (read (seg_source s) k) as [v|]; simpl|];
    repeat (apply Forall_cons; split); try apply Forall_nil; simpl; auto.
Qed.

Lemma pack_segments_accesses N (s1 s2 : segment) o tid (B : list fval) :
  seg_names_ok s1 → seg_names_ok s2 →
  0 <= o → o + N <= INT_MAX + 1 → 0 <= tid →
  Forall (writes_within "o_destinationBuffer" o (o + N))
         (accesses (pack_segments N s1 s2 o tid B)).
Proof.
  intros Hn1 Hn2 Ho HoN Ht. unfold pack_segments.
  destruct (Z.geb_spec tid N); [constructor|].
  assert (int_add o tid = o + tid) as ->.
  { apply int_add_exact. unfold in_range, INT_MIN, INT_MAX in *. lia. }
  destruct (tid <? seg_n s1); apply gather_accesses; try done; lia.
Qed.

Lemma rotation_segments_names (X Y : list fval) (IX IY : list Z) nX nY r s1 s2 :
  rotation_segments X Y IX IY nX nY r = Some (s1, s2) →
  seg_names_ok s1 ∧ seg_names_ok s2.
Proof.
  unfold rotation_segments. intros Hr.
  repeat case_match; try discriminate; injection Hr as <- <-;
    by repeat split.
Qed.

Lemma pack_vector_no_rotation (X Y : list fval) (IX IY : list Z) nX nY o r :
  rotation_segments X Y IX IY nX nY r = None →
  (∀ tid B, pack_vector X Y IX IY nX nY o r tid B = mret B)
  ∧ (∀ sched B, run_threads (pack_vector X Y IX IY nX nY o r) sched B = mret B).
Proof.
  intros Hr.
  assert (∀ tid B, pack_vector X Y IX IY nX nY o r tid B = mret B) as Hidle.
  { intros tid B. unfold rotation_segments in Hr. unfold pack_vector.
    destruct (tid >=? int_add nX nY); [done|]. by repeat case_match. }
  split; [done|].
  intros sched. induction sched as [|t rest IH]; intros B; [done|].
  rewrite run_threads_cons, Hidle, M_left_id. apply IH.
Qed.

Lemma pack_call_accesses (c : pack_call) len sched (B : list fval) :
  pack_ok c len → (∀ t, t ∈ sched → 0 <= t) →
  Forall (writes_within "o_destinationBuffer" (pack_offset c)
                        (pack_offset c + pack_count c))
         (accesses (run_threads (pack_body c) sched B)).
Proof.
  intros Hok Hpos. apply run_threads_accesses. intros tid D Hin.
  destruct c as [A I n o|X Y IX IY nX nY o r]; simpl in *.
  - destruct Hok as (_ & _ & Ho & _ & HoN).
    rewrite pack_scalar_segments.
    apply pack_segments_accesses; try done; auto.
  - destruct Hok as (HX & _ & HY & _ & HN & Ho & _ & HoN).
    destruct (rotation_segments X Y IX IY nX nY r) as [[s1 s2]|] eqn:Hr.
    + rewrite (pack_vector_segments _ _ _ _ _ _ _ _ _ _ _ _ Hr).
      destruct (rotation_segments_names _ _ _ _ _ _ _ _ _ Hr).
      rewrite int_add_exact by (unfold in_range, INT_MIN, INT_MAX in *; lia).
      apply pack_segments_accesses; try done; auto; lia.
    + rewrite (proj1 (pack_vector_no_rotation _ _ _ _ _ _ o _ Hr)). constructor.
Qed.

(** What a pack leaves in its range does not depend on the buffer it is
    given, save where it writes nothing (an unknown rotation code). *)
Lemma pack_call_launch (c : pack_call) len :
  pack_ok c len →
  ∃ content : Z → option fval,
    ∀ (B : list fval) sched,
      length B = len → (∀ t, t ∈ sched → 0 <= t) → covers sched (pack_count c) →
      ∃ B', outcome (run_threads (pack_body c) sched B) = Some B'
          ∧ length B' = length B
          ∧ (∀ p, in_pack_range c p →
                  read B' p = from_option Some (read B p) (content p))
          ∧ (∀ p, ¬ in_pack_range c p → read B' p = read B p).
Proof.
  intros Hok. unfold in_pack_range.
  destruct c as [A I n o|X Y IX IY nX nY o r]; simpl in *.
  - destruct Hok as (Hlen & Hall & Ho & HoB & HoN).
    exists (λ p, gathered A I (p - o)). intros B sched HB Hpos Hcov. subst len.
    destruct (pack_scalar_launch A I n o B sched)
      as (B' & Hrun & HlenB & Hget & Hframe); try done.
    exists B'. split; [done|]. split; [done|]. split; [|done].
    intros p Hp. destruct (Hget (p - o)) as [[v Hv] Hrd]; [lia|].
    replace (o + (p - o)) with p in Hrd by lia. by rewrite Hrd, Hv.
  - destruct Hok as (HX & HIX & HY & HIY & HN & Ho & HoB & HoN).
    destruct (rotation_segments X Y IX IY nX nY r) as [[s1 s2]|] eqn:Hr.
    + exists (λ p, if p - o <? seg_n s1 then seg_at s1 (p - o)
                   else seg_at s2 (p - o - seg_n s1)).
      intros B sched HB Hpos Hcov. subst len.
      destruct (rotation_segments_ok _ _ _ _ _ _ _ _ _ Hr HX HIX HY HIY)
        as (Hs1 & Hs2 & Hsum).
      destruct (pack_vector_launch X Y IX IY nX nY o r s1 s2 B sched)
        as (B' & Hrun & HlenB & H1 & H2 & Hframe); try done.
      exists B'. split; [done|]. split; [done|].
      split; [|intros p Hp; apply Hframe; lia].
      intros p Hp. destruct (Z.ltb_spec (p - o) (seg_n s1)).
      * destruct (H1 (p - o)) as [[v Hv] Hrd]; [lia|].
        replace (o + (p - o)) with p in Hrd by lia. by rewrite Hrd, Hv.
      * destruct (H2 (p - o - seg_n s1)) as [[v Hv] Hrd]; [lia|].
        replace (o + seg_n s1 + (p - o - seg_n s1)) with p in Hrd by lia.
        by rewrite Hrd, Hv.
    + exists (λ _, None). intros B sched HB Hpos Hcov.
      rewrite (proj2 (pack_vector_no_rotation _ _ _ _ _ _ o _ Hr)).
      exists B. by repeat split.
Qed.
End Pack_accesses.

(** ** Grids of more than [2^31] threads *)

(** A thread that faults on every state makes every launch it is part of
    fault. *)
Lemma run_threads_fault {S} (body : Z → S → M S) (tid : Z) (sched : list Z) :
  (∀ st, outcome (body tid st) = None) →
  tid ∈ sched →
  ∀ st, outcome (run_threads body sched st) = None.
Proof.
  intros Hfault. induction sched as [|t rest IH]; intros Hin st.
  - by apply elem_of_nil in Hin.
  - rewrite run_threads_cons, outcome_bind.
    destruct (outcome (body t st)) as [st'|] eqn:Hst; [|done].
    simpl. apply elem_of_cons in Hin as [->|Hin]; [|by apply IH].
    by rewrite Hfault in Hst.
Qed.

(** The identifier of each thread of each block is in the grid. *)
Lemma grid_tids_thread (gridDim blockDim blockIdx threadIdx : nat) :
  (blockIdx < gridDim)%nat → (threadIdx < blockDim)%nat →
  global_tid (Z.of_nat blockDim) (Z.of_nat blockIdx) (Z.of_nat threadIdx)
  ∈ grid_tids gridDim blockDim.
Proof.
  intros Hb Ht. unfold grid_tids. apply list_elem_of_In, in_flat_map.
  exists blockIdx. split; [apply in_seq; lia|].
  apply in_map_iff. exists threadIdx. split; [done|apply in_seq; lia].
Qed.

(** ** The threads of a segment pack *)

Section Segment_threads.
Context {fd : Fdtype}.

Lemma gather_active (s : segment) pos slot k v (D : list fval) :
  read (seg_indexes s) pos = Some k → read (seg_source s) k = Some v →
  gather s pos slot D
  = ([Rd (seg_indexes_name s) pos; Rd (seg_source_name s) k;
      Wr "o_destinationBuffer" slot],
     write D slot (seg_value s v)).
Proof.
  intros Hk Hv. unfold gather, load, store, mbind, M_bind. simpl.
  rewrite Hk. simpl. by rewrite Hv.
Qed.

(** After a launch of a segment pack, each slot of the range derives from
    the segment it lies in. *)
Lemma pack_segments_slots (body : Z → list fval → M (list fval))
    (s1 s2 : segment) (o : Z) (B : list fval) :
  (∀ tid D, body tid D
            = pack_segments (seg_n s1 + seg_n s2) s1 s2 o tid D) →
  seg_ok s1 → seg_ok s2 →
  seg_n s1 + seg_n s2 <= INT_MAX →
  0 <= o → o + seg_n s1 + seg_n s2 <= INT_MAX + 1 →
  (∀ i, 0 <= i < seg_n s1 → read B (o + i) = seg_at s1 i) →
  (∀ i, 0 <= i < seg_n s2 → read B (o + seg_n s1 + i) = seg_at s2 i) →
  (∀ i, 0 <= i < seg_n s1 →
     slot_derives_from body B o i (seg_indexes_name s1) (seg_source_name s1)
       (seg_source s1) (seg_indexes s1) i (seg_value s1))
  ∧ (∀ i, 0 <= i < seg_n s2 →
       slot_derives_from body B o (seg_n s1 + i)
         (seg_indexes_name s2) (seg_source_name s2)
         (seg_source s2) (seg_indexes s2) i (seg_value s2)).
Proof.
  intros Hbody Hs1 Hs2 HN Ho HoN H1 H2.
  pose proof (seg_n_nonneg _ Hs1). pose proof (seg_n_nonneg _ Hs2).
  split; intros i Hi.
  - destruct (seg_at_ok s1 i Hs1 Hi) as (k & v & Hk & Hv & Hat).
    exists k, v. split; [done|]. split; [done|]. split.
    + intros D. rewrite Hbody. unfold pack_segments.
      destruct (Z.geb_spec i (seg_n s1 + seg_n s2)); [lia|].
      destruct (Z.ltb_spec i (seg_n s1)); [|lia].
      rewrite int_add_exact
        by (unfold in_range, INT_MIN, INT_MAX in *; lia).
      by apply gather_active.
    + by rewrite H1, Hat.
  - destruct (seg_at_ok s2 i Hs2 Hi) as (k & v & Hk & Hv & Hat).
    exists k, v. split; [done|]. split; [done|]. split.
    + intros D. rewrite Hbody. unfold pack_segments.
      destruct (Z.geb_spec (seg_n s1 + i) (seg_n s1 + seg_n s2)); [lia|].
      destruct (Z.ltb_spec (seg_n s1 + i) (seg_n s1)); [lia|].
      rewrite int_add_exact
        by (unfold in_range, INT_MIN, INT_MAX in *; lia).
      rewrite int_sub_exact
        by (unfold in_range, INT_MIN, INT_MAX in *; lia).
      replace (seg_n s1 + i - seg_n s1) with i by lia.
      by apply gather_active.
    + rewrite <- Hat, <- H2 by done. f_equal. lia.
Qed.
End Segment_threads.

(** * The contracts of the four kernels *)

(** Closes a goal of the form [Forall P l] on a list given in full. *)
Ltac check_all := repeat (constructor; [simpl; lia|]); constructor.

(** C2. Scalar pack.  Given a source array, an index list of length [n], a
    destination buffer and an offset: the thread of every position [i] of
    [[0, n)] reads [index[i]], reads [source[index[i]]] and writes it to
    [destination[offset + i]], and does nothing else; a thread whose
    identifier is [n] or more makes no access and changes nothing; and after
    a launch that covers [n], in any order of its threads, the buffer holds
    [source[index[i]]] at [offset + i] for every such [i]. *)
Theorem pack_scalar_contract {fd : Fdtype} (source : list fval) (index : list Z)
    (n offset : Z) (destination : list fval)
    (gridDim blockDim : nat) (sched : list Z) :
  Z.of_nat (length index) = n →
  Forall (λ k, 0 <= k < Z.of_nat (length source)) index →
  0 <= offset →
  offset + n <= Z.of_nat (length destination) →
  offset + n <= INT_MAX + 1 →
  n <= Z.of_nat (gridDim * blockDim) <= INT_MAX + 1 →
  schedule_of gridDim blockDim sched →
  (∀ i D, 0 <= i < n → length D = length destination →
     ∃ k v, read index i = Some k ∧ read source k = Some v
          ∧ pack_scalar source index n offset i D
            = ([Rd "i_indexes" i; Rd "i_sourceArray" k;
                Wr "o_destinationBuffer" (offset + i)],
               Some (<[Z.to_nat (offset + i) := v]> D)))
  ∧ (∀ tid D, n <= tid → pack_scalar source index n offset tid D = ([], Some D))
  ∧ (∃ B', outcome (run_threads (pack_scalar source index n offset) sched destination)
           = Some B'
         ∧ length B' = length destination
         ∧ ∀ i, 0 <= i < n →
             ∃ v, gathered source index i = Some v ∧ read B' (offset + i) = Some v).
Proof.
  intros Hlen Hall Ho HoB HoN Hgrid Hsched. split; [|split].
  - intros i D Hi HD.
    destruct (gathered_in_bounds source index i Hall) as (k & v & Hk & Hv & _); [lia|].
    exists k, v. split; [done|]. split; [done|].
    assert (int_add offset i = offset + i) as Hadd.
    { apply int_add_exact. unfold in_range, INT_MIN, INT_MAX in *. lia. }
    rewrite <- Hadd. apply pack_scalar_active; try done; lia.
  - intros tid D Hge. by apply pack_scalar_idle.
  - destruct (pack_scalar_launch source index n offset destination sched)
      as (B' & Hrun & HlenB & Hget & _); try done.
    + by eapply schedule_nonneg; [|done]; lia.
    + by eapply schedule_covers.
    + exists B'. split; [done|]. split; [done|]. intros i Hi.
      destruct (Hget i Hi) as [[v Hv] Hrd]. exists v. by rewrite Hrd.
Qed.

Lemma pack_scalar_contract_witness :
  (∀ i D, 0 <= i < 2 → length D = 4%nat →
     ∃ k v, read [2; 0] i = Some k ∧ read [10; 20; 30]%float k = Some v
          ∧ pack_scalar_f64_kernel [10; 20; 30]%float [2; 0] 2 1 i D
            = ([Rd "i_indexes" i; Rd "i_sourceArray" k;
                Wr "o_destinationBuffer" (1 + i)],
               Some (<[Z.to_nat (1 + i) := v]> D)))
  ∧ (∀ tid D, 2 <= tid →
       pack_scalar_f64_kernel [10; 20; 30]%float [2; 0] 2 1 tid D = ([], Some D))
  ∧ (∃ B', outcome (run_threads (pack_scalar_f64_kernel [10; 20; 30]%float [2; 0] 2 1)
                                (grid_tids 1 4) [0; 0; 0; 0]%float)
           = Some B'
         ∧ length B' = 4%nat
         ∧ ∀ i, 0 <= i < 2 →
             ∃ v, gathered [10; 20; 30]%float [2; 0] i = Some v
                ∧ read B' (1 + i) = Some v).
Proof.
  apply (pack_scalar_contract (fd := double) [10; 20; 30]%float [2; 0] 2 1
           [0; 0; 0; 0]%float 1 4 (grid_tids 1 4)).
  - reflexivity.
  - check_all.
  - lia.
  - simpl. lia.
  - unfold INT_MAX. lia.
  - unfold INT_MAX. simpl. lia.
  - apply schedule_grid.
Defined.

(** C3. Scalar unpack.  Given a source buffer, an index list of length [n],
    an offset and a destination array: the thread of every position [i] of
    [[0, n)] reads [source[offset + i]] and [index[i]] and writes the former
    to [destination[index[i]]], and does nothing else; a thread whose
    identifier is [n] or more makes no access and changes nothing (the check
    of pack).  After a launch that covers [n], in any order, every slot
    [index[i]] holds [source[offset + j]] for a position [j] with
    [index[j] = index[i]], which is [i] itself when the index list has no
    repeated value, and every slot outside the index list is unchanged. *)
Theorem unpack_scalar_contract {fd : Fdtype} (source : list fval) (index : list Z)
    (n offset : Z) (destination : list fval)
    (gridDim blockDim : nat) (sched : list Z) :
  Z.of_nat (length index) = n →
  Forall (λ k, 0 <= k < Z.of_nat (length destination)) index →
  0 <= offset →
  offset + n <= Z.of_nat (length source) →
  offset + n <= INT_MAX + 1 →
  n <= Z.of_nat (gridDim * blockDim) <= INT_MAX + 1 →
  schedule_of gridDim blockDim sched →
  (∀ i D, 0 <= i < n → length D = length destination →
     ∃ k v, read index i = Some k ∧ read source (offset + i) = Some v
          ∧ unpack_scalar source index n offset i D
            = ([Rd "i_sourceBuffer" (offset + i); Rd "i_indexes" i;
                Wr "o_destinationArray" k],
               Some (<[Z.to_nat k := v]> D)))
  ∧ (∀ tid D, n <= tid → unpack_scalar source index n offset tid D = ([], Some D))
  ∧ (∃ D', outcome (run_threads (unpack_scalar source index n offset) sched destination)
           = Some D'
         ∧ length D' = length destination
         ∧ (∀ i, 0 <= i < n →
              ∃ j k v, 0 <= j < n ∧ read index i = Some k ∧ read index j = Some k
                     ∧ read source (offset + j) = Some v ∧ read D' k = Some v)
         ∧ (NoDup index → ∀ i, 0 <= i < n →
              ∃ k v, read index i = Some k ∧ read source (offset + i) = Some v
                   ∧ read D' k = Some v)
         ∧ (∀ q, q ∉ index → read D' q = read destination q)).
Proof.
  intros Hlen Hall Ho HoB HoN Hgrid Hsched. split; [|split].
  - intros i D Hi HD.
    destruct (index_in_bounds index _ i Hall) as (k & Hk & Hkr); [lia|].
    destruct (read_in_bounds source (offset + i)) as [v Hv]; [lia|].
    exists k, v. split; [done|]. split; [done|].
    assert (int_add offset i = offset + i) as Hadd.
    { apply int_add_exact. unfold in_range, INT_MIN, INT_MAX in *. lia. }
    rewrite <- Hadd in *. apply unpack_scalar_active; try done; lia.
  - intros tid D Hge. by apply unpack_scalar_idle.
  - destruct (unpack_scalar_launch source index n offset Hlen Ho HoB HoN sched destination)
      as (D' & Hrun & HlenD & Hget & Hframe); try done.
    + by eapply schedule_nonneg; [|done]; lia.
    + by eapply schedule_covers.
    + exists D'. split; [done|]. split; [done|]. split; [done|]. split; [|done].
      intros Hnodup i Hi.
      destruct (Hget i Hi) as (j & k & v & Hj & Hik & Hjk & Hv & Hrd).
      assert (i = j) as <-.
      { apply read_Some in Hik as [_ Hik]. apply read_Some in Hjk as [_ Hjk].
        pose proof (NoDup_lookup _ _ _ _ Hnodup Hik Hjk). lia. }
      by exists k, v.
Qed.

Lemma unpack_scalar_contract_witness :
  ∃ D', outcome (run_threads
                   (unpack_scalar_f32_kernel [f32 7; f32 8; f32 9; f32 10] [2; 0] 2 1)
                   (grid_tids 1 4) [f32 0; f32 0; f32 0])
        = Some D'
      ∧ length D' = 3%nat
      ∧ (∀ i, 0 <= i < 2 →
           ∃ j k v, 0 <= j < 2 ∧ read [2; 0] i = Some k ∧ read [2; 0] j = Some k
                  ∧ read [f32 7; f32 8; f32 9; f32 10] (1 + j) = Some v
                  ∧ read D' k = Some v)
      ∧ (NoDup [2; 0] → ∀ i, 0 <= i < 2 →
           ∃ k v, read [2; 0] i = Some k
                ∧ read [f32 7; f32 8; f32 9; f32 10] (1 + i) = Some v
                ∧ read D' k = Some v)
      ∧ (∀ q, q ∉ [2; 0] → read D' q = read [f32 0; f32 0; f32 0] q).
Proof.
  apply (unpack_scalar_contract (fd := float32) [f32 7; f32 8; f32 9; f32 10]
           [2; 0] 2 1 [f32 0; f32 0; f32 0] 1 4 (grid_tids 1 4)).
  - reflexivity.
  - check_all.
  - lia.
  - simpl. lia.
  - unfold INT_MAX. lia.
  - unfold INT_MAX. simpl. lia.
  - apply schedule_grid.
Defined.

(** C4. Vector unpack.  The thread of every [tid] of [[0, nX)] writes
    [source[offset + tid]] to [destinationX[indexX[tid]]], the thread of
    every [tid] of [[nX, nX + nY)] writes [source[offset + tid]] to
    [destinationY[indexY[tid - nX]]], each with these two reads and this one
    write only, and a thread from [nX + nY] on does nothing.  The value
    written is the value read: the kernel is the same whatever the product
    by [-1.0] of the element type is. *)
Theorem unpack_vector_contract {fd : Fdtype} (source : list fval)
    (indexX indexY : list Z) (nX nY offset : Z)
    (destinationX destinationY : list fval) :
  Z.of_nat (length indexX) = nX →
  Forall (λ k, 0 <= k < Z.of_nat (length destinationX)) indexX →
  Z.of_nat (length indexY) = nY →
  Forall (λ k, 0 <= k < Z.of_nat (length destinationY)) indexY →
  nX + nY <= INT_MAX →
  0 <= offset →
  offset + nX + nY <= Z.of_nat (length source) →
  offset + nX + nY <= INT_MAX + 1 →
  (∀ tid, 0 <= tid < nX →
     ∃ k v, read indexX tid = Some k ∧ read source (offset + tid) = Some v
          ∧ unpack_vector source indexX indexY nX nY offset tid
                          (destinationX, destinationY)
            = ([Rd "i_sourceBuffer" (offset + tid); Rd "i_indexesX" tid;
                Wr "o_destinationArrayX" k],
               Some (<[Z.to_nat k := v]> destinationX, destinationY)))
  ∧ (∀ tid, nX <= tid < nX + nY →
     ∃ k v, read indexY (tid - nX) = Some k ∧ read source (offset + tid) = Some v
          ∧ unpack_vector source indexX indexY nX nY offset tid
                          (destinationX, destinationY)
            = ([Rd "i_sourceBuffer" (offset + tid); Rd "i_indexesY" (tid - nX);
                Wr "o_destinationArrayY" k],
               Some (destinationX, <[Z.to_nat k := v]> destinationY)))
  ∧ (∀ tid, nX + nY <= tid →
       unpack_vector source indexX indexY nX nY offset tid
                     (destinationX, destinationY)
       = ([], Some (destinationX, destinationY)))
  ∧ (∀ neg : fval → fval,
       @unpack_vector {| fval := fval; fzero := fzero; neg1_mul := neg |}
       = @unpack_vector {| fval := fval; fzero := fzero; neg1_mul := neg1_mul |}).
Proof.
  intros HX HIX HY HIY HN Ho HoB HoN.
  assert (int_add nX nY = nX + nY) as Hcount.
  { apply int_add_exact. unfold in_range, INT_MIN, INT_MAX in *. lia. }
  split; [|split; [|split]].
  - intros tid Ht.
    destruct (index_in_bounds indexX _ tid HIX) as (k & Hk & Hkr); [lia|].
    destruct (read_in_bounds source (offset + tid)) as [v Hv]; [lia|].
    exists k, v. split; [done|]. split; [done|].
    assert (int_add offset tid = offset + tid) as Hadd.
    { apply int_add_exact. unfold in_range, INT_MIN, INT_MAX in *. lia. }
    rewrite <- Hadd in *. apply unpack_vector_X; try done; lia.
  - intros tid Ht.
    destruct (index_in_bounds indexY _ (tid - nX) HIY) as (k & Hk & Hkr); [lia|].
    destruct (read_in_bounds source (offset + tid)) as [v Hv]; [lia|].
    exists k, v. split; [done|]. split; [done|].
    assert (int_add offset tid = offset + tid) as Hadd.
    { apply int_add_exact. unfold in_range, INT_MIN, INT_MAX in *. lia. }
    assert (int_sub tid nX = tid - nX) as Hsub.
    { apply int_sub_exact. unfold in_range, INT_MIN, INT_MAX in *. lia. }
    rewrite <- Hadd, <- Hsub in *. apply unpack_vector_Y; try done; lia.
  - intros tid Ht. apply unpack_vector_idle; lia.
  - done.
Qed.

Lemma unpack_vector_contract_witness :
  (∀ tid, 0 <= tid < 2 →
     ∃ k v, read [1; 0] tid = Some k ∧ read [5; 6; 7; 8]%float (1 + tid) = Some v
          ∧ unpack_vector_f64_kernel [5; 6; 7; 8]%float [1; 0] [0] 2 1 1 tid
                          ([0; 0]%float, [0]%float)
            = ([Rd "i_sourceBuffer" (1 + tid); Rd "i_indexesX" tid;
                Wr "o_destinationArrayX" k],
               Some (<[Z.to_nat k := v]> [0; 0]%float, [0]%float)))
  ∧ (∀ tid, 2 <= tid < 2 + 1 →
     ∃ k v, read [0] (tid - 2) = Some k ∧ read [5; 6; 7; 8]%float (1 + tid) = Some v
          ∧ unpack_vector_f64_kernel [5; 6; 7; 8]%float [1; 0] [0] 2 1 1 tid
                          ([0; 0]%float, [0]%float)
            = ([Rd "i_sourceBuffer" (1 + tid); Rd "i_indexesY" (tid - 2);
                Wr "o_destinationArrayY" k],
               Some ([0; 0]%float, <[Z.to_nat k := v]> [0]%float))).
Proof.
  pose proof (unpack_vector_contract (fd := double) [5; 6; 7; 8]%float [1; 0] [0]
                2 1 1 [0; 0]%float [0]%float) as H.
  destruct H as (HX & HY & _).
  - reflexivity.
  - check_all.
  - reflexivity.
  - check_all.
  - unfold INT_MAX. lia.
  - lia.
  - simpl. lia.
  - unfold INT_MAX. lia.
  - split; [exact HX|exact HY].
Defined.

(** C5. Bounds no-op, as amended.  In each of the four kernels a thread
    whose identifier is at or beyond the declared count ([n] for the scalar
    kernels, [nX + nY] for the vector kernels, the second test of vector
    unpack included) makes no read and no write, so that a launch of
    [gridDim * blockDim >= n] threads has the accesses and the result of a
    launch of exactly [n] threads, as long as the launch has at most [2^31]
    threads: the identifiers are then the numbers of the threads.  (Past
    [2^31] threads an identifier is negative, and the test against the
    count lets it through; the lemma after the next one runs such a
    launch.)  The counts are not negative, and [nX + nY] is an [int]. *)
Theorem bounds_noop {fd : Fdtype} (n nX nY : Z) (gridDim blockDim : nat) :
  0 <= n <= Z.of_nat (gridDim * blockDim) →
  0 <= nX → 0 <= nY →
  nX + nY <= INT_MAX →
  nX + nY <= Z.of_nat (gridDim * blockDim) →
  Z.of_nat (gridDim * blockDim) <= INT_MAX + 1 →
  (∀ A I o, extra_threads_inert (pack_scalar A I n o) n gridDim blockDim)
  ∧ (∀ B I o, extra_threads_inert (unpack_scalar B I n o) n gridDim blockDim)
  ∧ (∀ X Y IX IY o r,
       extra_threads_inert (pack_vector X Y IX IY nX nY o r) (nX + nY)
                           gridDim blockDim)
  ∧ (∀ B IX IY o,
       extra_threads_inert (unpack_vector B IX IY nX nY o) (nX + nY)
                           gridDim blockDim).
Proof.
  intros Hn HnX HnY HN HNg Hg.
  assert (int_add nX nY = nX + nY) as Hcount.
  { apply int_add_exact. unfold in_range, INT_MIN, INT_MAX in *. lia. }
  split; [|split; [|split]]; intros; apply launch_inert; try lia.
  - apply pack_scalar_idle.
  - apply unpack_scalar_idle.
  - rewrite <- Hcount. apply pack_vector_idle.
  - rewrite <- Hcount. apply unpack_vector_idle. lia.
Qed.

Lemma bounds_noop_witness :
  (∀ A I o, extra_threads_inert (pack_scalar_f64_kernel A I 5 o) 5 2 4)
  ∧ (∀ B I o, extra_threads_inert (unpack_scalar_f64_kernel B I 5 o) 5 2 4)
  ∧ (∀ X Y IX IY o r,
       extra_threads_inert (pack_vector_f64_kernel X Y IX IY 3 2 o r) (3 + 2) 2 4)
  ∧ (∀ B IX IY o,
       extra_threads_inert (unpack_vector_f64_kernel B IX IY 3 2 o) (3 + 2) 2 4).
Proof.
  apply (bounds_noop (fd := double) 5 3 2 2 4); unfold INT_MAX; simpl; lia.
Defined.

(** C5, the claim as stated fails past [2^31] threads.  A grid of 2097153
    blocks of 1024 threads ([2^31 + 1024] threads) is launched for a count of
    1 (scalar pack) and for counts of 1 and 1 (vector unpack).  The first
    thread of the last block is past the count, but its identifier, the
    unsigned [1024 * 2097152 + 0] converted to [int], is [-2^31]: it passes
    the test against the count, the thread reads outside its arrays, and the
    launch faults where the launch of exactly the counted threads
    succeeds. *)
Lemma bounds_noop_oversized_grid :
  global_tid 1024 2097152 0 = -2147483648
  ∧ (pack_scalar_f64_kernel [7]%float [0] 1 0 (-2147483648) [0]%float
     = ([Rd "i_indexes" (-2147483648)], None)
     ∧ outcome (launch (pack_scalar_f64_kernel [7]%float [0] 1 0) 1 1
                       [0]%float) = Some [7]%float
     ∧ outcome (launch (pack_scalar_f64_kernel [7]%float [0] 1 0)
                       (Z.to_nat 2097153) 1024 [0]%float) = None
     ∧ ¬ extra_threads_inert (pack_scalar_f64_kernel [7]%float [0] 1 0) 1
           (Z.to_nat 2097153) 1024)
  ∧ (unpack_vector_f64_kernel [7; 8]%float [0] [0] 1 1 0 (-2147483648)
       ([0]%float, [0]%float)
     = ([Rd "i_sourceBuffer" (-2147483648)], None)
     ∧ outcome (launch (unpack_vector_f64_kernel [7; 8]%float [0] [0] 1 1 0)
                       1 2 ([0]%float, [0]%float))
       = Some ([7]%float, [8]%float)
     ∧ outcome (launch (unpack_vector_f64_kernel [7; 8]%float [0] [0] 1 1 0)
                       (Z.to_nat 2097153) 1024 ([0]%float, [0]%float)) = None
     ∧ ¬ extra_threads_inert
           (unpack_vector_f64_kernel [7; 8]%float [0] [0] 1 1 0) (1 + 1)
           (Z.to_nat 2097153) 1024).
Proof.
  assert (-2147483648 ∈ grid_tids (Z.to_nat 2097153) 1024) as Hin.
  { pose proof (grid_tids_thread (Z.to_nat 2097153) 1024 (Z.to_nat 2097152) 0)
      as H.
    rewrite Z2Nat.id in H by lia. apply H; lia. }
  split; [reflexivity|]. split.
  - assert (outcome (launch (pack_scalar_f64_kernel [7]%float [0] 1 0)
                            (Z.to_nat 2097153) 1024 [0]%float) = None) as Hfault.
    { by apply (run_threads_fault _ (-2147483648)). }
    split; [reflexivity|]. split; [reflexivity|]. split; [exact Hfault|].
    intros (_ & Hlaunch & _). rewrite (Hlaunch [0]%float) in Hfault.
    discriminate Hfault.
  - assert (outcome (launch (unpack_vector_f64_kernel [7; 8]%float [0] [0] 1 1 0)
                            (Z.to_nat 2097153) 1024 ([0]%float, [0]%float))
            = None) as Hfault.
    { apply (run_threads_fault _ (-2147483648)); [|exact Hin].
      by intros [X Y]. }
    split; [reflexivity|]. split; [reflexivity|]. split; [exact Hfault|].
    intros (_ & Hlaunch & _). rewrite (Hlaunch ([0]%float, [0]%float)) in Hfault.
    discriminate Hfault.
Qed.

(** C7. Scalar round trip.  For every source array [A], every index list
    [I] of in-bounds values without repetition and every offset [o], packing
    [A] through [I] into a buffer at [o] and unpacking that buffer through
    [I] at [o] into an array of zeros of the length of [A] gives an array
    equal to [A] at every index of [I], whatever the order of the threads of
    either launch (and zero at every other index). *)
Theorem scalar_round_trip {fd : Fdtype} (A : list fval) (I : list Z) (o : Z)
    (buffer : list fval)
    (gridDim blockDim gridDim' blockDim' : nat) (sched sched' : list Z) :
  NoDup I →
  Forall (λ k, 0 <= k < Z.of_nat (length A)) I →
  0 <= o →
  o + Z.of_nat (length I) <= Z.of_nat (length buffer) →
  o + Z.of_nat (length I) <= INT_MAX + 1 →
  Z.of_nat (length I) <= Z.of_nat (gridDim * blockDim) <= INT_MAX + 1 →
  schedule_of gridDim blockDim sched →
  Z.of_nat (length I) <= Z.of_nat (gridDim' * blockDim') <= INT_MAX + 1 →
  schedule_of gridDim' blockDim' sched' →
  ∃ packed unpacked,
    outcome (run_threads (pack_scalar A I (Z.of_nat (length I)) o) sched buffer)
    = Some packed
    ∧ outcome (run_threads (unpack_scalar packed I (Z.of_nat (length I)) o) sched'
                           (replicate (length A) fzero))
      = Some unpacked
    ∧ length unpacked = length A
    ∧ (∀ k, k ∈ I → read unpacked k = read A k)
    ∧ (∀ k, k ∉ I → 0 <= k < Z.of_nat (length A) → read unpacked k = Some fzero).
Proof.
  intros Hnodup Hall Ho HoB HoN Hgrid Hsched Hgrid' Hsched'.
  destruct (pack_scalar_launch A I (Z.of_nat (length I)) o buffer sched)
    as (packed & Hpack & Hlenp & Hget & _); try done.
  { by eapply (schedule_nonneg gridDim blockDim); [lia|]. }
  { by eapply (schedule_covers gridDim blockDim). }
  destruct (unpack_scalar_launch packed I (Z.of_nat (length I)) o)
    with (sched := sched') (D := replicate (length A) fzero)
    as (unpacked & Hunpack & Hlenu & Hset & Hframe); try done.
  { rewrite Hlenp. lia. }
  { by rewrite length_replicate. }
  { by eapply (schedule_nonneg gridDim' blockDim'); [lia|]. }
  { by eapply (schedule_covers gridDim' blockDim'). }
  exists packed, unpacked. split; [done|]. split; [done|].
  split; [by rewrite Hlenu, length_replicate|]. split.
  - intros k Hk. apply list_elem_of_lookup_1 in Hk as [i Hi].
    assert (0 <= Z.of_nat i < Z.of_nat (length I)) as Hir.
    { apply lookup_lt_Some in Hi. lia. }
    assert (read I (Z.of_nat i) = Some k) as Hrk.
    { apply read_Some. split; [lia|]. by rewrite Nat2Z.id. }
    destruct (Hset _ Hir) as (j & k' & v & Hj & Hik & Hjk & Hv & Hrd).
    rewrite Hrk in Hik. injection Hik as <-.
    assert (Z.of_nat i = j) as <-.
    { apply read_Some in Hrk as [_ Hrk]. apply read_Some in Hjk as [_ Hjk].
      pose proof (NoDup_lookup _ _ _ _ Hnodup Hrk Hjk). lia. }
    destruct (Hget _ Hir) as [_ Hpacked].
    rewrite Hrd, <- Hv, Hpacked. unfold gathered. by rewrite Hrk.
  - intros k Hk Hkr. rewrite Hframe by done.
    apply read_Some. split; [lia|]. apply lookup_replicate_2. lia.
Qed.

Lemma scalar_round_trip_witness :
  ∃ packed unpacked,
    outcome (run_threads (pack_scalar_f64_kernel [10; 20; 30]%float [2; 0] 2 1)
                         (grid_tids 1 4) [0; 0; 0; 0]%float)
    = Some packed
    ∧ outcome (run_threads (unpack_scalar_f64_kernel packed [2; 0] 2 1)
                           (grid_tids 2 2) (replicate 3 0%float))
      = Some unpacked
    ∧ length unpacked = 3%nat
    ∧ (∀ k, k ∈ [2; 0] → read unpacked k = read [10; 20; 30]%float k)
    ∧ (∀ k, k ∉ [2; 0] → 0 <= k < 3 → read unpacked k = Some 0%float).
Proof.
  apply (scalar_round_trip (fd := double) [10; 20; 30]%float [2; 0] 1
           [0; 0; 0; 0]%float 1 4 2 2 (grid_tids 1 4) (grid_tids 2 2)).
  - apply NoDup_cons. split; [by intros [=]%list_elem_of_singleton|].
    apply NoDup_singleton.
  - check_all.
  - lia.
  - simpl. lia.
  - unfold INT_MAX. simpl. lia.
  - unfold INT_MAX. simpl. lia.
  - apply schedule_grid.
  - unfold INT_MAX. simpl. lia.
  - apply schedule_grid.
Defined.

(** C10. A rotation code outside [{0, 1, 2, 3}].  Every write of vector
    pack is under one of the four tests [i_rotate == 0 .. 3] and there is no
    branch for another code: with such a code no thread makes any access,
    and a launch, whatever its threads, returns the destination buffer as it
    was. *)
Theorem pack_vector_unknown_rotation {fd : Fdtype} (X Y : list fval)
    (IX IY : list Z) (nX nY o r : Z) :
  r ≠ 0 → r ≠ 1 → r ≠ 2 → r ≠ 3 →
  (∀ tid B, pack_vector X Y IX IY nX nY o r tid B = ([], Some B))
  ∧ (∀ sched B, run_threads (pack_vector X Y IX IY nX nY o r) sched B
                = ([], Some B)).
Proof.
  intros H0 H1 H2 H3.
  apply (pack_vector_no_rotation X Y IX IY nX nY o r).
  unfold rotation_segments.
  destruct (Z.eqb_spec r 0); [done|]. destruct (Z.eqb_spec r 1); [done|].
  destruct (Z.eqb_spec r 2); [done|]. destruct (Z.eqb_spec r 3); done.
Qed.

Lemma pack_vector_unknown_rotation_witness :
  (∀ tid B, pack_vector_f64_kernel [1; 2]%float [3; 4]%float [0; 1] [0; 1]
                                   2 2 0 4 tid B = ([], Some B))
  ∧ (∀ sched B, run_threads (pack_vector_f64_kernel [1; 2]%float [3; 4]%float
                                                    [0; 1] [0; 1] 2 2 0 4) sched B
                = ([], Some B)).
Proof.
  apply (pack_vector_unknown_rotation (fd := double)
           [1; 2]%float [3; 4]%float [0; 1] [0; 1] 2 2 0 4); lia.
Defined.

(** C1. Rotation correctness.  With [x = [1, 2]], [y = [3, 4]],
    [indexX = indexY = [0, 1]], [nX = nY = 2] and offset [0], the launch of
    vector pack leaves [[1, 2, 3, 4]] in the buffer under rotation code 0,
    [[3, 4, -1, -2]] under code 1, [[-1, -2, -3, -4]] under code 2 and
    [[-3, -4, 1, 2]] under code 3, in the binary64 kernel and in the
    binary32 kernel.  In general, for valid index lists and
    any order of the threads, the packed range follows the table of
    rotations: code 0 packs the [x] values then the [y] values, both copied;
    code 1 the [y] values copied then [-1.0 * x]; code 2 [-1.0 * x] then
    [-1.0 * y]; code 3 [-1.0 * y] then the [x] values copied. *)
Theorem pack_vector_rotation :
  (outcome (launch (pack_vector_f64_kernel [1; 2]%float [3; 4]%float [0; 1] [0; 1]
                                           2 2 0 0) 1 4 [0; 0; 0; 0]%float)
   = Some [1; 2; 3; 4]%float
   ∧ outcome (launch (pack_vector_f64_kernel [1; 2]%float [3; 4]%float [0; 1] [0; 1]
                                             2 2 0 1) 1 4 [0; 0; 0; 0]%float)
     = Some [3; 4; -1; -2]%float
   ∧ outcome (launch (pack_vector_f64_kernel [1; 2]%float [3; 4]%float [0; 1] [0; 1]
                                             2 2 0 2) 1 4 [0; 0; 0; 0]%float)
     = Some [-1; -2; -3; -4]%float
   ∧ outcome (launch (pack_vector_f64_kernel [1; 2]%float [3; 4]%float [0; 1] [0; 1]
                                             2 2 0 3) 1 4 [0; 0; 0; 0]%float)
     = Some [-3; -4; 1; 2]%float)
  ∧ (outcome (launch (pack_vector_f32_kernel [f32 1; f32 2] [f32 3; f32 4]
                                             [0; 1] [0; 1] 2 2 0 0)
                     1 4 [f32 0; f32 0; f32 0; f32 0])
     = Some [f32 1; f32 2; f32 3; f32 4]
     ∧ outcome (launch (pack_vector_f32_kernel [f32 1; f32 2] [f32 3; f32 4]
                                               [0; 1] [0; 1] 2 2 0 1)
                       1 4 [f32 0; f32 0; f32 0; f32 0])
       = Some [f32 3; f32 4; f32 (-1); f32 (-2)]
     ∧ outcome (launch (pack_vector_f32_kernel [f32 1; f32 2] [f32 3; f32 4]
                                               [0; 1] [0; 1] 2 2 0 2)
                       1 4 [f32 0; f32 0; f32 0; f32 0])
       = Some [f32 (-1); f32 (-2); f32 (-3); f32 (-4)]
     ∧ outcome (launch (pack_vector_f32_kernel [f32 1; f32 2] [f32 3; f32 4]
                                               [0; 1] [0; 1] 2 2 0 3)
                       1 4 [f32 0; f32 0; f32 0; f32 0])
       = Some [f32 (-3); f32 (-4); f32 1; f32 2])
  ∧ ∀ (fd : Fdtype) (x y : list fval) (indexX indexY : list Z) (nX nY offset : Z)
      (buffer : list fval) (gridDim blockDim : nat) (sched : list Z),
      Z.of_nat (length indexX) = nX →
      Forall (λ k, 0 <= k < Z.of_nat (length x)) indexX →
      Z.of_nat (length indexY) = nY →
      Forall (λ k, 0 <= k < Z.of_nat (length y)) indexY →
      nX + nY <= INT_MAX →
      0 <= offset →
      offset + nX + nY <= Z.of_nat (length buffer) →
      offset + nX + nY <= INT_MAX + 1 →
      nX + nY <= Z.of_nat (gridDim * blockDim) <= INT_MAX + 1 →
      schedule_of gridDim blockDim sched →
      (∃ B', outcome (run_threads (pack_vector x y indexX indexY nX nY offset 0)
                                  sched buffer) = Some B'
           ∧ (∀ i, 0 <= i < nX → is_Some (gathered x indexX i)
                 ∧ read B' (offset + i) = gathered x indexX i)
           ∧ (∀ i, 0 <= i < nY → is_Some (gathered y indexY i)
                 ∧ read B' (offset + nX + i) = gathered y indexY i))
      ∧ (∃ B', outcome (run_threads (pack_vector x y indexX indexY nX nY offset 1)
                                    sched buffer) = Some B'
           ∧ (∀ i, 0 <= i < nY → is_Some (gathered y indexY i)
                 ∧ read B' (offset + i) = gathered y indexY i)
           ∧ (∀ i, 0 <= i < nX → is_Some (gathered x indexX i)
                 ∧ read B' (offset + nY + i) = neg1_mul <$> gathered x indexX i))
      ∧ (∃ B', outcome (run_threads (pack_vector x y indexX indexY nX nY offset 2)
                                    sched buffer) = Some B'
           ∧ (∀ i, 0 <= i < nX → is_Some (gathered x indexX i)
                 ∧ read B' (offset + i) = neg1_mul <$> gathered x indexX i)
           ∧ (∀ i, 0 <= i < nY → is_Some (gathered y indexY i)
                 ∧ read B' (offset + nX + i) = neg1_mul <$> gathered y indexY i))
      ∧ (∃ B', outcome (run_threads (pack_vector x y indexX indexY nX nY offset 3)
                                    sched buffer) = Some B'
           ∧ (∀ i, 0 <= i < nY → is_Some (gathered y indexY i)
                 ∧ read B' (offset + i) = neg1_mul <$> gathered y indexY i)
           ∧ (∀ i, 0 <= i < nX → is_Some (gathered x indexX i)
                 ∧ read B' (offset + nY + i) = gathered x indexX i)).
Proof.
  split; [by vm_compute|]. split; [by vm_compute|].
  intros fd x y indexX indexY nX nY offset buffer gridDim blockDim sched
         HX HIX HY HIY HN Ho HoB HoN Hgrid Hsched.
  assert (∀ t, t ∈ sched → 0 <= t) as Hpos
    by (eapply schedule_nonneg; [|done]; lia).
  assert (covers sched (nX + nY)) as Hcov by by eapply schedule_covers.
  assert (∀ r s1 s2,
    rotation_segments x y indexX indexY nX nY r = Some (s1, s2) →
    ∃ B', outcome (run_threads (pack_vector x y indexX indexY nX nY offset r)
                               sched buffer) = Some B'
        ∧ (∀ i, 0 <= i < seg_n s1 → is_Some (seg_at s1 i)
                 ∧ read B' (offset + i) = seg_at s1 i)
        ∧ (∀ i, 0 <= i < seg_n s2 → is_Some (seg_at s2 i)
                 ∧ read B' (offset + seg_n s1 + i) = seg_at s2 i)) as Hrot.
  { intros r s1 s2 Hr.
    destruct (pack_vector_launch x y indexX indexY nX nY offset r s1 s2 buffer sched)
      as (B' & Hrun & _ & H1 & H2 & _); try done.
    by exists B'. }
  split; [|split; [|split]].
  - destruct (Hrot 0 _ _ eq_refl) as (B' & Hrun & H1 & H2). exists B'.
    split; [done|]. split; intros i Hi.
    + destruct (H1 i Hi) as [Hs Hrd]. unfold segX, segY in *. rewrite seg_at_copy in *. done.
    + destruct (H2 i Hi) as [Hs Hrd]. unfold segX, segY in *. rewrite seg_at_copy in *. done.
  - destruct (Hrot 1 _ _ eq_refl) as (B' & Hrun & H1 & H2). exists B'.
    split; [done|]. split; intros i Hi.
    + destruct (H1 i Hi) as [Hs Hrd]. unfold segX, segY in *. rewrite seg_at_copy in *. done.
    + destruct (H2 i Hi) as [Hs Hrd]. unfold segX, segY in *. rewrite seg_at_negate in *.
      split; [|done]. by apply fmap_is_Some in Hs.
  - destruct (Hrot 2 _ _ eq_refl) as (B' & Hrun & H1 & H2). exists B'.
    split; [done|]. split; intros i Hi.
    + destruct (H1 i Hi) as [Hs Hrd]. unfold segX, segY in *. rewrite seg_at_negate in *.
      split; [|done]. by apply fmap_is_Some in Hs.
    + destruct (H2 i Hi) as [Hs Hrd]. unfold segX, segY in *. rewrite seg_at_negate in *.
      split; [|done]. by apply fmap_is_Some in Hs.
  - destruct (Hrot 3 _ _ eq_refl) as (B' & Hrun & H1 & H2). exists B'.
    split; [done|]. split; intros i Hi.
    + destruct (H1 i Hi) as [Hs Hrd]. unfold segX, segY in *. rewrite seg_at_negate in *.
      split; [|done]. by apply fmap_is_Some in Hs.
    + destruct (H2 i Hi) as [Hs Hrd]. unfold segX, segY in *. rewrite seg_at_copy in *. done.
Qed.

Lemma pack_vector_rotation_witness :
  ∃ B', outcome (run_threads
                   (pack_vector_f64_kernel [1.5; 2.5]%float [4; 5; 6]%float
                                           [1; 0] [2; 0; 1] 2 3 1 1)
                   (grid_tids 2 3) [0; 0; 0; 0; 0; 0; 0]%float) = Some B'
      ∧ (∀ i, 0 <= i < 3 → is_Some (gathered [4; 5; 6]%float [2; 0; 1] i)
            ∧ read B' (1 + i) = gathered [4; 5; 6]%float [2; 0; 1] i)
      ∧ (∀ i, 0 <= i < 2 → is_Some (gathered [1.5; 2.5]%float [1; 0] i)
            ∧ read B' (1 + 3 + i)
              = neg1_mul (Fdtype := double) <$> gathered [1.5; 2.5]%float [1; 0] i).
Proof.
  pose proof (proj2 (proj2 pack_vector_rotation) double [1.5; 2.5]%float [4; 5; 6]%float
                [1; 0] [2; 0; 1] 2 3 1 [0; 0; 0; 0; 0; 0; 0]%float 2%nat 3%nat
                (grid_tids 2 3)) as H.
  destruct H as (_ & H1 & _).
  - reflexivity.
  - check_all.
  - reflexivity.
  - check_all.
  - unfold INT_MAX. lia.
  - lia.
  - simpl. lia.
  - unfold INT_MAX. lia.
  - unfold INT_MAX. simpl. lia.
  - apply schedule_grid.
  - exact H1.
Defined.

(** C8. Rotation inverse pairing.  A vector packed under a rotation code
    and unpacked is [(y, -1.0 * x)] under code 1, [(-1.0 * x, -1.0 * y)]
    under code 2 and [(-1.0 * y, x)] under code 3.  On a vector whose
    components are restored by two products by [-1.0], code 1 followed by
    code 3 is the identity, as is code 3 followed by code 1, and code 2
    followed by code 2; every vector of binary64 numbers and every vector
    of binary32 numbers is such a vector. *)
Theorem rotation_inverse_pairing :
  (∀ (fd : Fdtype) (x y : fval),
     rotate_vector 1 (x, y) = Some (y, neg1_mul x)
     ∧ rotate_vector 2 (x, y) = Some (neg1_mul x, neg1_mul y)
     ∧ rotate_vector 3 (x, y) = Some (neg1_mul y, x)
     ∧ (neg1_mul (neg1_mul x) = x → neg1_mul (neg1_mul y) = y →
        rotate_vector 1 (x, y) ≫= rotate_vector 3 = Some (x, y)
        ∧ rotate_vector 3 (x, y) ≫= rotate_vector 1 = Some (x, y)
        ∧ rotate_vector 2 (x, y) ≫= rotate_vector 2 = Some (x, y)))
  ∧ (∀ x y : PrimFloat.float,
       rotate_vector (fd := double) 1 (x, y) ≫= rotate_vector 3 = Some (x, y)
       ∧ rotate_vector (fd := double) 3 (x, y) ≫= rotate_vector 1 = Some (x, y)
       ∧ rotate_vector (fd := double) 2 (x, y) ≫= rotate_vector 2 = Some (x, y))
  ∧ (∀ x y : spec_float,
       SpecFloat.valid_binary 24 128 x = true →
       SpecFloat.valid_binary 24 128 y = true →
       rotate_vector (fd := float32) 1 (x, y) ≫= rotate_vector 3 = Some (x, y)
       ∧ rotate_vector (fd := float32) 3 (x, y) ≫= rotate_vector 1 = Some (x, y)
       ∧ rotate_vector (fd := float32) 2 (x, y) ≫= rotate_vector 2 = Some (x, y)).
Proof.
  assert (∀ (fd : Fdtype) (x y : fval),
     rotate_vector 1 (x, y) = Some (y, neg1_mul x)
     ∧ rotate_vector 2 (x, y) = Some (neg1_mul x, neg1_mul y)
     ∧ rotate_vector 3 (x, y) = Some (neg1_mul y, x)
     ∧ (neg1_mul (neg1_mul x) = x → neg1_mul (neg1_mul y) = y →
        rotate_vector 1 (x, y) ≫= rotate_vector 3 = Some (x, y)
        ∧ rotate_vector 3 (x, y) ≫= rotate_vector 1 = Some (x, y)
        ∧ rotate_vector 2 (x, y) ≫= rotate_vector 2 = Some (x, y))) as Hgen.
  { intros fd x y.
    assert (∀ a b, rotate_vector 1 (a, b) = Some (b, neg1_mul a)) as H1
      by (intros; by vm_compute).
    assert (∀ a b, rotate_vector 2 (a, b) = Some (neg1_mul a, neg1_mul b)) as H2
      by (intros; by vm_compute).
    assert (∀ a b, rotate_vector 3 (a, b) = Some (neg1_mul b, a)) as H3
      by (intros; by vm_compute).
    split; [done|]. split; [done|]. split; [done|]. intros Hx Hy.
    rewrite !H1, !H2, !H3. simpl. rewrite !H1, !H2, !H3, Hx, Hy. done. }
  split; [done|]. split.
  - intros x y. apply (Hgen double x y); apply double_neg1_mul_involutive.
  - intros x y Hx Hy.
    apply (Hgen float32 x y); by apply float32_neg1_mul_involutive.
Qed.

Lemma rotation_inverse_pairing_witness :
  rotate_vector (fd := float32) 1 (f32 3, f32 (-2)) ≫= rotate_vector 3
  = Some (f32 3, f32 (-2))
  ∧ rotate_vector (fd := float32) 3 (f32 3, f32 (-2)) ≫= rotate_vector 1
    = Some (f32 3, f32 (-2))
  ∧ rotate_vector (fd := float32) 2 (f32 3, f32 (-2)) ≫= rotate_vector 2
    = Some (f32 3, f32 (-2)).
Proof.
  apply (proj1 rotation_inverse_pairing float32 (f32 3) (f32 (-2))).
  - reflexivity.
  - reflexivity.
Defined.

(** C6. Segment split law.  For valid arguments and any buffer, a launch
    of vector pack in any thread order returns a buffer whose range is split
    at [nX] under rotation codes 0 and 2 and at [nY] under codes 1 and 3.
    Under codes 0 and 2 each of the first [nX] slots derives from the X
    array and the X index list only, and each of the remaining [nY] slots
    from the Y array and the Y index list only; under codes 1 and 3 each of
    the first [nY] slots derives from Y only and each of the remaining [nX]
    slots from X only.  "Derives only from" is [slot_derives_from]: the
    thread of the slot reads its index list and its array and nothing else
    (neither the other array, nor the other index list, nor the buffer),
    and the slot ends with the value read, copied or multiplied by [-1.0]
    as the code of the rotation says. *)
Theorem pack_vector_split {fd : Fdtype} (x y : list fval)
    (indexX indexY : list Z) (nX nY offset rotate : Z)
    (buffer : list fval) (gridDim blockDim : nat) (sched : list Z) :
  Z.of_nat (length indexX) = nX →
  Forall (λ k, 0 <= k < Z.of_nat (length x)) indexX →
  Z.of_nat (length indexY) = nY →
  Forall (λ k, 0 <= k < Z.of_nat (length y)) indexY →
  nX + nY <= INT_MAX →
  0 <= offset →
  offset + nX + nY <= Z.of_nat (length buffer) →
  offset + nX + nY <= INT_MAX + 1 →
  nX + nY <= Z.of_nat (gridDim * blockDim) <= INT_MAX + 1 →
  schedule_of gridDim blockDim sched →
  let body := pack_vector x y indexX indexY nX nY offset rotate in
  let from_X := λ B tid pos value,
    slot_derives_from body B offset tid "i_indexesX" "i_sourceArrayX"
                      x indexX pos value in
  let from_Y := λ B tid pos value,
    slot_derives_from body B offset tid "i_indexesY" "i_sourceArrayY"
                      y indexY pos value in
  ∃ B,
    outcome (run_threads body sched buffer) = Some B
    ∧ (rotate = 0 →
         (∀ i, 0 <= i < nX → from_X B i i id)
         ∧ (∀ i, 0 <= i < nY → from_Y B (nX + i) i id))
    ∧ (rotate = 1 →
         (∀ i, 0 <= i < nY → from_Y B i i id)
         ∧ (∀ i, 0 <= i < nX → from_X B (nY + i) i neg1_mul))
    ∧ (rotate = 2 →
         (∀ i, 0 <= i < nX → from_X B i i neg1_mul)
         ∧ (∀ i, 0 <= i < nY → from_Y B (nX + i) i neg1_mul))
    ∧ (rotate = 3 →
         (∀ i, 0 <= i < nY → from_Y B i i neg1_mul)
         ∧ (∀ i, 0 <= i < nX → from_X B (nY + i) i id)).
Proof.
  intros HX HIX HY HIY HN Ho HoB HoN Hgrid Hsched body from_X from_Y.
  assert (∀ t, t ∈ sched → 0 <= t) as Hpos
    by (eapply schedule_nonneg; [|done]; lia).
  assert (covers sched (nX + nY)) as Hcov by by eapply schedule_covers.
  assert (int_add nX nY = nX + nY) as Hadd.
  { apply int_add_exact. unfold in_range, INT_MIN, INT_MAX in *. lia. }
  assert (∀ s1 s2,
    rotation_segments x y indexX indexY nX nY rotate = Some (s1, s2) →
    ∃ B, outcome (run_threads body sched buffer) = Some B
       ∧ (∀ i, 0 <= i < seg_n s1 →
            slot_derives_from body B offset i
              (seg_indexes_name s1) (seg_source_name s1)
              (seg_source s1) (seg_indexes s1) i (seg_value s1))
       ∧ (∀ i, 0 <= i < seg_n s2 →
            slot_derives_from body B offset (seg_n s1 + i)
              (seg_indexes_name s2) (seg_source_name s2)
              (seg_source s2) (seg_indexes s2) i (seg_value s2))) as Hsplit.
  { intros s1 s2 Hr.
    destruct (rotation_segments_ok _ _ _ _ _ _ _ _ _ Hr HX HIX HY HIY)
      as (Hs1 & Hs2 & Hsum).
    destruct (pack_vector_launch x y indexX indexY nX nY offset rotate s1 s2
                buffer sched) as (B & Hrun & _ & H1 & H2 & _); try done.
    exists B. split; [done|].
    apply pack_segments_slots; try done; try lia.
    - intros tid D. unfold body.
      rewrite (pack_vector_segments _ _ _ _ _ _ _ _ s1 s2) by done.
      by rewrite Hadd, Hsum.
    - intros i Hi. by apply H1.
    - intros i Hi. by apply H2. }
  destruct (rotation_segments x y indexX indexY nX nY rotate)
    as [[s1 s2]|] eqn:Hr.
  - destruct (Hsplit s1 s2 eq_refl) as (B & HB & H1 & H2).
    exists B. split; [done|].
    unfold rotation_segments in Hr.
    split; [|split; [|split]]; intros ->; simpl in Hr;
      injection Hr as <- <-;
      (split; intros i Hi; [exact (H1 i Hi)|exact (H2 i Hi)]).
  - exists buffer.
    destruct (pack_vector_no_rotation x y indexX indexY nX nY offset rotate Hr)
      as [_ Hrun].
    unfold body. rewrite Hrun. split; [done|].
    unfold rotation_segments in Hr.
    split; [|split; [|split]]; intros ->; discriminate Hr.
Qed.

Lemma pack_vector_split_witness :
  ∃ B,
    outcome (run_threads (pack_vector_f64_kernel [1; 2]%float [3; 4; 5]%float
                            [1; 0] [0; 2; 1] 2 3 1 1)
                         (grid_tids 2 3) [0; 0; 0; 0; 0; 0]%float) = Some B
    ∧ (∀ i, 0 <= i < 3 →
         slot_derives_from
           (pack_vector_f64_kernel [1; 2]%float [3; 4; 5]%float
              [1; 0] [0; 2; 1] 2 3 1 1)
           B 1 i "i_indexesY" "i_sourceArrayY" [3; 4; 5]%float [0; 2; 1] i id)
    ∧ (∀ i, 0 <= i < 2 →
         slot_derives_from
           (pack_vector_f64_kernel [1; 2]%float [3; 4; 5]%float
              [1; 0] [0; 2; 1] 2 3 1 1)
           B 1 (3 + i) "i_indexesX" "i_sourceArrayX" [1; 2]%float [1; 0] i
           (neg1_mul (Fdtype := double))).
Proof.
  destruct (pack_vector_split (fd := double)
              [1; 2]%float [3; 4; 5]%float [1; 0] [0; 2; 1] 2 3 1 1
              [0; 0; 0; 0; 0; 0]%float 2 3 (grid_tids 2 3))
    as (B & HB & _ & H1 & _).
  - reflexivity.
  - check_all.
  - reflexivity.
  - check_all.
  - unfold INT_MAX. lia.
  - lia.
  - simpl. lia.
  - unfold INT_MAX. lia.
  - unfold INT_MAX. simpl. lia.
  - apply schedule_grid.
  - exists B. split; [exact HB|]. exact (H1 eq_refl).
Defined.

(** C9. Frame property of pack.  A pack invocation, scalar or vector, with
    declared count [n] (or [nX + nY]) and offset [o] writes the destination
    buffer only, at positions of [[o, o + n)], and reads it nowhere; every
    position of the buffer outside that range keeps its value.  Two pack
    invocations into ranges that do not overlap, one after the other on the
    same buffer, leave in each range what its own invocation leaves there
    when run alone, and leave every position outside both ranges as it
    was. *)
Theorem pack_frame {fd : Fdtype} (c1 c2 : pack_call) (buffer : list fval)
    (gridDim1 blockDim1 gridDim2 blockDim2 : nat) (sched1 sched2 sched2' : list Z) :
  pack_ok c1 (length buffer) →
  pack_ok c2 (length buffer) →
  pack_count c1 <= Z.of_nat (gridDim1 * blockDim1) <= INT_MAX + 1 →
  schedule_of gridDim1 blockDim1 sched1 →
  pack_count c2 <= Z.of_nat (gridDim2 * blockDim2) <= INT_MAX + 1 →
  schedule_of gridDim2 blockDim2 sched2 →
  schedule_of gridDim2 blockDim2 sched2' →
  pack_offset c1 + pack_count c1 <= pack_offset c2
  ∨ pack_offset c2 + pack_count c2 <= pack_offset c1 →
  ∃ B1 B2 B12,
    outcome (run_threads (pack_body c1) sched1 buffer) = Some B1
    ∧ outcome (run_threads (pack_body c2) sched2' buffer) = Some B2
    ∧ outcome (run_threads (pack_body c2) sched2 B1) = Some B12
    ∧ length B1 = length buffer
    ∧ (∀ p, ¬ in_pack_range c1 p → read B1 p = read buffer p)
    ∧ Forall (writes_within "o_destinationBuffer" (pack_offset c1)
                            (pack_offset c1 + pack_count c1))
             (accesses (run_threads (pack_body c1) sched1 buffer))
    ∧ Forall (writes_within "o_destinationBuffer" (pack_offset c2)
                            (pack_offset c2 + pack_count c2))
             (accesses (run_threads (pack_body c2) sched2 B1))
    ∧ (∀ p, in_pack_range c1 p → read B12 p = read B1 p)
    ∧ (∀ p, in_pack_range c2 p → read B12 p = read B2 p)
    ∧ (∀ p, ¬ in_pack_range c1 p → ¬ in_pack_range c2 p →
            read B12 p = read buffer p).
Proof.
  intros Hok1 Hok2 Hgrid1 Hsched1 Hgrid2 Hsched2 Hsched2' Hdisj.
  assert (∀ t, t ∈ sched1 → 0 <= t) as Hpos1
    by (eapply (schedule_nonneg gridDim1 blockDim1); [lia|done]).
  assert (∀ t, t ∈ sched2 → 0 <= t) as Hpos2
    by (eapply (schedule_nonneg gridDim2 blockDim2); [lia|done]).
  assert (∀ t, t ∈ sched2' → 0 <= t) as Hpos2'
    by (eapply (schedule_nonneg gridDim2 blockDim2); [lia|done]).
  pose proof (schedule_covers gridDim1 blockDim1 sched1 _ Hgrid1 Hsched1) as Hcov1.
  pose proof (schedule_covers gridDim2 blockDim2 sched2 _ Hgrid2 Hsched2) as Hcov2.
  pose proof (schedule_covers gridDim2 blockDim2 sched2' _ Hgrid2 Hsched2') as Hcov2'.
  destruct (pack_call_launch c1 _ Hok1) as [content1 Hrun1].
  destruct (pack_call_launch c2 _ Hok2) as [content2 Hrun2].
  destruct (Hrun1 buffer sched1) as (B1 & HB1 & Hlen1 & Hin1 & Hout1); try done.
  destruct (Hrun2 buffer sched2') as (B2 & HB2 & Hlen2 & Hin2 & Hout2); try done.
  destruct (Hrun2 B1 sched2) as (B12 & HB12 & Hlen12 & Hin12 & Hout12); try done.
  exists B1, B2, B12. do 5 (split; [done|]).
  split; [by eapply pack_call_accesses|].
  split; [by eapply (pack_call_accesses c2 (length buffer))|].
  unfold in_pack_range in *. split; [|split].
  - intros p Hp. apply Hout12. lia.
  - intros p Hp. rewrite Hin12, Hin2 by done. rewrite Hout1 by lia. done.
  - intros p Hp1 Hp2. by rewrite Hout12, Hout1.
Qed.

Lemma pack_frame_witness :
  ∃ B1 B2 B12,
    outcome (run_threads (pack_scalar_f64_kernel [10; 20; 30]%float [2; 0] 2 0)
                         (grid_tids 1 4) [0; 0; 0; 0; 0; 0; 0]%float) = Some B1
    ∧ outcome (run_threads (pack_vector_f64_kernel [1; 2]%float [3; 4]%float
                              [0; 1] [0; 1] 2 2 3 1)
                           (grid_tids 2 2) [0; 0; 0; 0; 0; 0; 0]%float) = Some B2
    ∧ outcome (run_threads (pack_vector_f64_kernel [1; 2]%float [3; 4]%float
                              [0; 1] [0; 1] 2 2 3 1)
                           (grid_tids 2 2) B1) = Some B12
    ∧ length B1 = 7%nat
    ∧ (∀ p, ¬ 0 <= p < 0 + 2 → read B1 p = read [0; 0; 0; 0; 0; 0; 0]%float p)
    ∧ (∀ p, 0 <= p < 0 + 2 → read B12 p = read B1 p)
    ∧ (∀ p, 3 <= p < 3 + (2 + 2) → read B12 p = read B2 p)
    ∧ (∀ p, ¬ 0 <= p < 0 + 2 → ¬ 3 <= p < 3 + (2 + 2) →
            read B12 p = read [0; 0; 0; 0; 0; 0; 0]%float p).
Proof.
  destruct (pack_frame (fd := double)
              (PackScalar (fd := double) [10; 20; 30]%float [2; 0] 2 0)
              (PackVector (fd := double) [1; 2]%float [3; 4]%float
                          [0; 1] [0; 1] 2 2 3 1)
              [0; 0; 0; 0; 0; 0; 0]%float 1 4 2 2
              (grid_tids 1 4) (grid_tids 2 2) (grid_tids 2 2))
    as (B1 & B2 & B12 & H1 & H2 & H12 & Hlen & Hframe & _ & _ & Ha & Hb & Hc).
  - simpl. split; [reflexivity|]. split; [check_all|]. unfold INT_MAX. lia.
  - simpl. split; [reflexivity|]. split; [check_all|]. split; [reflexivity|].
    split; [check_all|]. unfold INT_MAX. lia.
  - unfold INT_MAX. simpl. lia.
  - apply schedule_grid.
  - unfold INT_MAX. simpl. lia.
  - apply schedule_grid.
  - apply schedule_grid.
  - left. simpl. lia.
  - exists B1, B2, B12. by repeat split.
Defined.

(** * Further properties of the kernels *)

(** ** More arithmetic of [int] *)

Lemma to_int_inj a b :
  to_int a = to_int b → -4294967296 < a - b < 4294967296 → a = b.
Proof.
  unfold to_int. intros Heq Hd.
  assert ((a + 2147483648) mod 4294967296 = (b + 2147483648) mod 4294967296)
    as Hmod by lia.
  clear Heq. revert Hmod.
  rewrite (Z.mod_eq (a + 2147483648)), (Z.mod_eq (b + 2147483648)) by lia.
  generalize ((a + 2147483648) / 4294967296), ((b + 2147483648) / 4294967296).
  intros qa qb Hq. lia.
Qed.

Lemma to_int_range z : in_range (to_int z).
Proof.
  unfold in_range, INT_MIN, INT_MAX, to_int.
  pose proof (Z.mod_pos_bound (z + 2147483648) 4294967296). lia.
Qed.

(** ** Schedules in two parts *)

Lemma run_threads_app {S} (body : Z → S → M S) s1 s2 st :
  outcome (run_threads body (s1 ++ s2) st)
  = outcome (run_threads body s1 st) ≫= (λ st', outcome (run_threads body s2 st')).
Proof.
  revert st. induction s1 as [|t s1 IH]; intros st; [done|].
  simpl app. rewrite !run_threads_cons, !outcome_bind.
  destruct (outcome (body t st)) as [st'|]; simpl; [apply IH|done].
Qed.

(** ** The write of a thread *)

Section Write_position.
Context {fd : Fdtype}.

Lemma gather_write (s : segment) pos slot (B : list fval) a p :
  Wr a p ∈ accesses (gather s pos slot B) → p = slot.
Proof.
  unfold gather, load, store, mbind, M_bind, accesses. simpl.
  destruct (read (seg_indexes s) pos) as [k|]; simpl;
    [destruct (read (seg_source s) k) as [v|]; simpl|];
    rewrite ?elem_of_cons, ?elem_of_nil; intros H;
    repeat destruct H as [H|H]; try discriminate; try done;
    by injection H.
Qed.

Lemma pack_segments_write N (s1 s2 : segment) o tid (B : list fval) a p :
  Wr a p ∈ accesses (pack_segments N s1 s2 o tid B) → p = int_add o tid.
Proof.
  unfold pack_segments. destruct (tid >=? N).
  - by intros ?%elem_of_nil.
  - destruct (tid <? seg_n s1); apply gather_write.
Qed.

Lemma pack_body_write (c : pack_call) tid (B : list fval) a p :
  Wr a p ∈ accesses (pack_body c tid B) → p = int_add (pack_offset c) tid.
Proof.
  destruct c as [A I n o|X Y IX IY nX nY o r]; simpl.
  - rewrite pack_scalar_segments. apply pack_segments_write.
  - destruct (rotation_segments X Y IX IY nX nY r) as [[s1 s2]|] eqn:Hr.
    + rewrite (pack_vector_segments _ _ _ _ _ _ _ _ _ _ _ _ Hr).
      apply pack_segments_write.
    + rewrite (proj1 (pack_vector_no_rotation _ _ _ _ _ _ o _ Hr)).
      by intros ?%elem_of_nil.
Qed.
End Write_position.

(** X1. No two threads of a pack write the same position.  In either pack
    kernel the one position a thread writes is [i_offset+tid]; for two
    different thread identifiers (two values of type [int]) these positions
    differ, also when the sum wraps around. *)
Theorem pack_writes_race_free {fd : Fdtype} (c : pack_call) (tid tid' : Z)
    (B B' : list fval) (a a' : string) (p : Z) :
  in_range tid → in_range tid' → tid ≠ tid' →
  Wr a p ∈ accesses (pack_body c tid B) →
  Wr a' p ∉ accesses (pack_body c tid' B').
Proof.
  intros Ht Ht' Hne Hw Hw'. apply Hne.
  apply pack_body_write in Hw. apply pack_body_write in Hw'.
  unfold int_add in *. rewrite Hw in Hw'.
  assert (pack_offset c + tid = pack_offset c + tid'); [|lia].
  apply to_int_inj; [done|]. unfold in_range, INT_MIN, INT_MAX in *. lia.
Qed.

Lemma pack_writes_race_free_witness :
  Wr "o_destinationBuffer" 4
    ∉ accesses (pack_vector_f64_kernel [1; 2]%float [3; 4]%float [0; 1] [0; 1]
                                       2 2 3 1 2 [0; 0; 0; 0; 0; 0; 0]%float).
Proof.
  apply (pack_writes_race_free
           (PackVector (fd := double) [1; 2]%float [3; 4]%float [0; 1] [0; 1] 2 2 3 1)
           1 2 [0; 0; 0; 0; 0; 0; 0]%float [0; 0; 0; 0; 0; 0; 0]%float
           "o_destinationBuffer" "o_destinationBuffer" 4).
  - unfold in_range, INT_MIN, INT_MAX. lia.
  - unfold in_range, INT_MIN, INT_MAX. lia.
  - lia.
  - vm_compute. repeat constructor.
Defined.

(** X2. The thread identifiers of a grid.  In a grid of at most [2^31]
    threads, [blockDim.x * blockIdx.x + threadIdx.x] numbers the threads
    [0, 1, ..., gridDim * blockDim - 1]: every such number is the identifier
    of a thread, of one thread only, and there is no other identifier. *)
Theorem grid_identifiers (gridDim blockDim : nat) :
  Z.of_nat (gridDim * blockDim) <= INT_MAX + 1 →
  NoDup (grid_tids gridDim blockDim)
  ∧ length (grid_tids gridDim blockDim) = (gridDim * blockDim)%nat
  ∧ ∀ tid, tid ∈ grid_tids gridDim blockDim
           ↔ 0 <= tid < Z.of_nat (gridDim * blockDim).
Proof.
  intros Hle. rewrite grid_tids_seqZ by done.
  split; [apply NoDup_seqZ|]. split.
  - rewrite length_seqZ. lia.
  - intros tid. rewrite elem_of_seqZ. lia.
Qed.

Lemma grid_identifiers_witness :
  NoDup (grid_tids 2 3)
  ∧ length (grid_tids 2 3) = (2 * 3)%nat
  ∧ ∀ tid, tid ∈ grid_tids 2 3 ↔ 0 <= tid < Z.of_nat (2 * 3).
Proof. apply (grid_identifiers 2 3). unfold INT_MAX. simpl. lia. Defined.



(** ** Vector unpack as two scalar unpacks *)

Section Unpack_vector_parts.
Context {fd : Fdtype}.
Variables (B : list fval) (IX IY : list Z) (nX nY o : Z).
Hypothesis HnX : 0 <= nX.
Hypothesis HN : nX + nY <= INT_MAX.

Lemma unpack_vector_thread_X tid (DX DY : list fval) :
  tid < nX →
  outcome (unpack_vector B IX IY nX nY o tid (DX, DY))
  = outcome (unpack_scalar B IX nX o tid DX) ≫= (λ x, Some (x, DY)).
Proof.
  intros Ht. unfold unpack_vector, unpack_scalar.
  destruct (Z.ltb_spec tid nX); [|lia]. destruct (Z.geb_spec tid nX); [lia|].
  unfold load, store, mbind at 1 2 3 5 6, M_bind, outcome. simpl.
  destruct (read B (int_add o tid)) as [v|]; simpl; [|done].
  destruct (read IX tid) as [k|]; simpl; [|done].
  by destruct (write DX k v).
Qed.

Lemma unpack_vector_thread_Y tid (DX DY : list fval) :
  0 <= nY → nX <= tid <= INT_MAX →
  outcome (unpack_vector B IX IY nX nY o tid (DX, DY))
  = outcome (unpack_scalar B IY nY (o + nX) (tid - nX) DY) ≫= (λ y, Some (DX, y)).
Proof.
  intros HnY Ht. unfold unpack_vector, unpack_scalar.
  rewrite (int_add_exact nX nY)
    by (unfold in_range, INT_MIN, INT_MAX in *; lia).
  rewrite (int_sub_exact tid nX)
    by (unfold in_range, INT_MIN, INT_MAX in *; lia).
  assert (int_add (o + nX) (tid - nX) = int_add o tid) as ->.
  { unfold int_add. f_equal. lia. }
  destruct (Z.ltb_spec tid nX); [lia|].
  destruct (Z.ltb_spec tid (nX + nY)); destruct (Z.geb_spec (tid - nX) nY);
    try lia; [|done].
  unfold load, store, mbind at 1 2 3 5 6, M_bind, outcome. simpl.
  destruct (read B (int_add o tid)) as [v|]; simpl; [|done].
  destruct (read IY (tid - nX)) as [k|]; simpl; [|done].
  by destruct (write DY k v).
Qed.

Lemma unpack_vector_run sched (DX DY : list fval) :
  0 <= nY → (∀ t, t ∈ sched → 0 <= t <= INT_MAX) →
  outcome (run_threads (unpack_vector B IX IY nX nY o) sched (DX, DY))
  = x ← outcome (run_threads (unpack_scalar B IX nX o) sched DX);
    y ← outcome (run_threads (unpack_scalar B IY nY (o + nX))
                             ((λ t, t - nX) <$> filter (λ t, nX <= t) sched) DY);
    Some (x, y).
Proof.
  intros HnY. revert DX DY.
  induction sched as [|t rest IH]; intros DX DY Hsched; [done|].
  assert (∀ t', t' ∈ rest → 0 <= t' <= INT_MAX) as Hrest
    by (intros; apply Hsched; by right).
  assert (0 <= t <= INT_MAX) as Ht by (apply Hsched; by left).
  rewrite run_threads_cons, outcome_bind.
  destruct (decide (nX <= t)) as [Hge|Hlt].
  - rewrite filter_cons_True by done. rewrite fmap_cons.
    rewrite unpack_vector_thread_Y by lia.
    rewrite (run_threads_cons _ t), (unpack_scalar_idle B IX nX o t DX) by lia.
    rewrite M_left_id. rewrite (run_threads_cons _ (t - nX)), outcome_bind.
    destruct (outcome (unpack_scalar B IY nY (o + nX) (t - nX) DY)) as [y|];
      simpl.
    + by apply IH.
    + by destruct (outcome (run_threads (unpack_scalar B IX nX o) rest DX)).
  - rewrite filter_cons_False by done.
    rewrite unpack_vector_thread_X by lia.
    rewrite (run_threads_cons _ t), outcome_bind.
    destruct (outcome (unpack_scalar B IX nX o t DX)) as [x|]; simpl; [|done].
    by apply IH.
Qed.
End Unpack_vector_parts.

(** X4. Vector unpack is two scalar unpacks.  For counts and thread
    identifiers in the non-negative range of [int], a launch of vector
    unpack gives (or faults as) the scalar unpack of the buffer at [offset]
    through the X index list into X, together with the scalar unpack of the
    buffer at [offset + nX] through the Y index list into Y, run by the
    threads from [nX] on, renumbered from 0. *)
Theorem unpack_vector_as_scalars {fd : Fdtype} (source : list fval)
    (indexX indexY : list Z) (nX nY offset : Z) (sched : list Z)
    (destinationX destinationY : list fval) :
  0 <= nX → 0 <= nY → nX + nY <= INT_MAX →
  (∀ t, t ∈ sched → 0 <= t <= INT_MAX) →
  outcome (run_threads (unpack_vector source indexX indexY nX nY offset) sched
                       (destinationX, destinationY))
  = x ← outcome (run_threads (unpack_scalar source indexX nX offset) sched
                             destinationX);
    y ← outcome (run_threads (unpack_scalar source indexY nY (offset + nX))
                             ((λ t, t - nX) <$> filter (λ t, nX <= t) sched)
                             destinationY);
    Some (x, y).
Proof. intros HnX HnY HN Hsched. by apply unpack_vector_run. Qed.

Lemma unpack_vector_as_scalars_witness :
  outcome (run_threads (unpack_vector_f64_kernel [5; 6; 7; 8]%float [1; 0] [0] 2 1 1)
                       [3; 2; 0; 1] ([0; 0]%float, [0]%float))
  = x ← outcome (run_threads (unpack_scalar_f64_kernel [5; 6; 7; 8]%float [1; 0] 2 1)
                             [3; 2; 0; 1] [0; 0]%float);
    y ← outcome (run_threads (unpack_scalar_f64_kernel [5; 6; 7; 8]%float [0] 1 (1 + 2))
                             ((λ t, t - 2) <$> filter (λ t, 2 <= t) [3; 2; 0; 1])
                             [0]%float);
    Some (x, y).
Proof.
  apply (unpack_vector_as_scalars (fd := double) [5; 6; 7; 8]%float [1; 0] [0]
           2 1 1 [3; 2; 0; 1] [0; 0]%float [0]%float); unfold INT_MAX; try lia.
  intros t Ht. rewrite !elem_of_cons, elem_of_nil in Ht. lia.
Defined.

(** ** Launches of vector unpack *)

Section Unpack_vector_launch.
Context {fd : Fdtype}.

Lemma covers_shifted (sched : list Z) nX nY :
  0 <= nX → covers sched (nX + nY) →
  covers ((λ t, t - nX) <$> filter (λ t, nX <= t) sched) nY.
Proof.
  intros HnX Hcov i Hi. apply list_elem_of_fmap. exists (nX + i).
  split; [lia|]. apply list_elem_of_filter. split; [lia|]. apply Hcov. lia.
Qed.

Lemma nonneg_shifted (sched : list Z) nX :
  ∀ t, t ∈ (λ t, t - nX) <$> filter (λ t, nX <= t) sched → 0 <= t.
Proof.
  intros t (t' & -> & Hin)%list_elem_of_fmap.
  apply list_elem_of_filter in Hin as [? _]. lia.
Qed.

(** The launch does not fault; in each destination every slot named by its
    index list ends with the buffer element of one of the positions that
    name it, and every other slot keeps its value. *)
Lemma unpack_vector_launch (B : list fval) (IX IY : list Z) nX nY o sched
    (DX DY : list fval) :
  Z.of_nat (length IX) = nX →
  Forall (λ k, 0 <= k < Z.of_nat (length DX)) IX →
  Z.of_nat (length IY) = nY →
  Forall (λ k, 0 <= k < Z.of_nat (length DY)) IY →
  nX + nY <= INT_MAX →
  0 <= o → o + nX + nY <= Z.of_nat (length B) → o + nX + nY <= INT_MAX + 1 →
  (∀ t, t ∈ sched → 0 <= t <= INT_MAX) → covers sched (nX + nY) →
  ∃ DX' DY',
    outcome (run_threads (unpack_vector B IX IY nX nY o) sched (DX, DY))
    = Some (DX', DY')
    ∧ length DX' = length DX ∧ length DY' = length DY
    ∧ (∀ i, 0 <= i < nX →
         ∃ j k v, 0 <= j < nX ∧ read IX i = Some k ∧ read IX j = Some k
                ∧ read B (o + j) = Some v ∧ read DX' k = Some v)
    ∧ (∀ i, 0 <= i < nY →
         ∃ j k v, 0 <= j < nY ∧ read IY i = Some k ∧ read IY j = Some k
                ∧ read B (o + nX + j) = Some v ∧ read DY' k = Some v)
    ∧ (∀ q, q ∉ IX → read DX' q = read DX q)
    ∧ (∀ q, q ∉ IY → read DY' q = read DY q).
Proof.
  intros HX HIX HY HIY HN Ho HoB HoN Hsched Hcov.
  assert (0 <= nX ∧ 0 <= nY) as [HnX HnY] by lia.
  rewrite unpack_vector_run by done.
  destruct (unpack_scalar_launch B IX nX o) with (sched := sched) (D := DX)
    as (DX' & HrunX & HlenX & HsetX & HframeX); try done; try lia.
  { intros t Ht. by apply Hsched. }
  { intros i Hi. apply Hcov. lia. }
  destruct (unpack_scalar_launch B IY nY (o + nX))
    with (sched := (λ t, t - nX) <$> filter (λ t, nX <= t) sched) (D := DY)
    as (DY' & HrunY & HlenY & HsetY & HframeY); try done; try lia.
  { apply nonneg_shifted. }
  { by apply covers_shifted. }
  exists DX', DY'. rewrite HrunX, HrunY. by repeat split.
Qed.
End Unpack_vector_launch.

(** Pack under a rotation code, then unpack on the receiving side. *)
Lemma exchange_launch {fd : Fdtype} (x y : list fval) (indexX indexY : list Z)
    (nX nY offset rotate : Z) (s1 s2 : segment) (buffer : list fval)
    (gridDim blockDim : nat) (sched : list Z)
    (recvIndexX recvIndexY : list Z) (recvX recvY : list fval)
    (gridDim' blockDim' : nat) (sched' : list Z) :
  rotation_segments x y indexX indexY nX nY rotate = Some (s1, s2) →
  Z.of_nat (length indexX) = nX →
  Forall (λ k, 0 <= k < Z.of_nat (length x)) indexX →
  Z.of_nat (length indexY) = nY →
  Forall (λ k, 0 <= k < Z.of_nat (length y)) indexY →
  nX + nY <= INT_MAX →
  0 <= offset →
  offset + nX + nY <= Z.of_nat (length buffer) →
  offset + nX + nY <= INT_MAX + 1 →
  nX + nY <= Z.of_nat (gridDim * blockDim) <= INT_MAX + 1 →
  schedule_of gridDim blockDim sched →
  Z.of_nat (length recvIndexX) = seg_n s1 →
  NoDup recvIndexX →
  Forall (λ k, 0 <= k < Z.of_nat (length recvX)) recvIndexX →
  Z.of_nat (length recvIndexY) = seg_n s2 →
  NoDup recvIndexY →
  Forall (λ k, 0 <= k < Z.of_nat (length recvY)) recvIndexY →
  nX + nY <= Z.of_nat (gridDim' * blockDim') <= INT_MAX + 1 →
  schedule_of gridDim' blockDim' sched' →
  ∃ packed X' Y',
    outcome (run_threads (pack_vector x y indexX indexY nX nY offset rotate)
                         sched buffer) = Some packed
    ∧ outcome (run_threads (unpack_vector packed recvIndexX recvIndexY
                                          (seg_n s1) (seg_n s2) offset)
                           sched' (recvX, recvY)) = Some (X', Y')
    ∧ (∀ i, 0 <= i < seg_n s1 →
         ∃ k, read recvIndexX i = Some k ∧ is_Some (seg_at s1 i)
            ∧ read X' k = seg_at s1 i)
    ∧ (∀ i, 0 <= i < seg_n s2 →
         ∃ k, read recvIndexY i = Some k ∧ is_Some (seg_at s2 i)
            ∧ read Y' k = seg_at s2 i)
    ∧ (∀ q, q ∉ recvIndexX → read X' q = read recvX q)
    ∧ (∀ q, q ∉ recvIndexY → read Y' q = read recvY q).
Proof.
  intros Hr HX HIX HY HIY HN Ho HoB HoN Hgrid Hsched
         HJX HndX HJXin HJY HndY HJYin Hgrid' Hsched'.
  destruct (rotation_segments_ok _ _ _ _ _ _ _ _ _ Hr HX HIX HY HIY)
    as (Hs1 & Hs2 & Hsum).
  destruct (pack_vector_launch x y indexX indexY nX nY offset rotate s1 s2
              buffer sched)
    as (packed & Hpack & Hlenp & H1 & H2 & _); try done.
  { eapply (schedule_nonneg gridDim blockDim); [lia|done]. }
  { by eapply (schedule_covers gridDim blockDim). }
  destruct (unpack_vector_launch packed recvIndexX recvIndexY (seg_n s1) (seg_n s2)
              offset sched' recvX recvY)
    as (X' & Y' & Hunpack & _ & _ & HgetX & HgetY & HfrX & HfrY);
    try done; try lia.
  { intros t Ht.
    apply (schedule_elem_of gridDim' blockDim') in Ht; [lia|lia|done]. }
  { apply (schedule_covers gridDim' blockDim'); [lia|done]. }
  exists packed, X', Y'. split; [done|]. split; [done|].
  split; [|split; [|done]].
  - intros i Hi. destruct (HgetX i Hi) as (j & k & v & Hj & Hik & Hjk & Hv & Hrd).
    assert (i = j) as <-.
    { apply read_Some in Hik as [_ Hik]. apply read_Some in Hjk as [_ Hjk].
      pose proof (NoDup_lookup _ _ _ _ HndX Hik Hjk). lia. }
    destruct (H1 i Hi) as [Hsome Hat].
    exists k. split; [done|]. split; [done|]. by rewrite Hrd, <- Hv, Hat.
  - intros i Hi. destruct (HgetY i Hi) as (j & k & v & Hj & Hik & Hjk & Hv & Hrd).
    assert (i = j) as <-.
    { apply read_Some in Hik as [_ Hik]. apply read_Some in Hjk as [_ Hjk].
      pose proof (NoDup_lookup _ _ _ _ HndY Hik Hjk). lia. }
    destruct (H2 i Hi) as [Hsome Hat].
    exists k. split; [done|]. split; [done|]. by rewrite Hrd, <- Hv, Hat.
Qed.

(** X5. A vector field sent and received.  Vector pack under a rotation
    code, followed by vector unpack of the packed buffer on the receiving
    side (index lists without repetition, as long as the two segments of the
    code: [nX] then [nY] under codes 0 and 2, [nY] then [nX] under codes 1
    and 3), leaves in the received X array the first segment of the table
    ([x], [y], [-1.0 * x], [-1.0 * y] for the codes 0, 1, 2, 3) and in the
    received Y array the second one ([y], [-1.0 * x], [-1.0 * y], [x]),
    position by position through the index lists, and leaves every other
    slot of the received arrays as it was. *)
Theorem vector_exchange {fd : Fdtype} (x y : list fval) (indexX indexY : list Z)
    (nX nY offset rotate : Z) (s1 s2 : segment) (buffer : list fval)
    (gridDim blockDim : nat) (sched : list Z)
    (recvIndexX recvIndexY : list Z) (recvX recvY : list fval)
    (gridDim' blockDim' : nat) (sched' : list Z) :
  rotation_segments x y indexX indexY nX nY rotate = Some (s1, s2) →
  Z.of_nat (length indexX) = nX →
  Forall (λ k, 0 <= k < Z.of_nat (length x)) indexX →
  Z.of_nat (length indexY) = nY →
  Forall (λ k, 0 <= k < Z.of_nat (length y)) indexY →
  nX + nY <= INT_MAX →
  0 <= offset →
  offset + nX + nY <= Z.of_nat (length buffer) →
  offset + nX + nY <= INT_MAX + 1 →
  nX + nY <= Z.of_nat (gridDim * blockDim) <= INT_MAX + 1 →
  schedule_of gridDim blockDim sched →
  Z.of_nat (length recvIndexX) = seg_n s1 →
  NoDup recvIndexX →
  Forall (λ k, 0 <= k < Z.of_nat (length recvX)) recvIndexX →
  Z.of_nat (length recvIndexY) = seg_n s2 →
  NoDup recvIndexY →
  Forall (λ k, 0 <= k < Z.of_nat (length recvY)) recvIndexY →
  nX + nY <= Z.of_nat (gridDim' * blockDim') <= INT_MAX + 1 →
  schedule_of gridDim' blockDim' sched' →
  ∃ packed X' Y',
    outcome (run_threads (pack_vector x y indexX indexY nX nY offset rotate)
                         sched buffer) = Some packed
    ∧ outcome (run_threads (unpack_vector packed recvIndexX recvIndexY
                                          (seg_n s1) (seg_n s2) offset)
                           sched' (recvX, recvY)) = Some (X', Y')
    ∧ (∀ i, 0 <= i < seg_n s1 →
         ∃ k, read recvIndexX i = Some k ∧ is_Some (seg_at s1 i)
            ∧ read X' k = seg_at s1 i)
    ∧ (∀ i, 0 <= i < seg_n s2 →
         ∃ k, read recvIndexY i = Some k ∧ is_Some (seg_at s2 i)
            ∧ read Y' k = seg_at s2 i)
    ∧ (∀ q, q ∉ recvIndexX → read X' q = read recvX q)
    ∧ (∀ q, q ∉ recvIndexY → read Y' q = read recvY q).
Proof.
  intros. by eapply (exchange_launch x y indexX indexY nX nY offset rotate s1 s2
                       buffer gridDim blockDim sched).
Qed.

Lemma vector_exchange_witness :
  ∃ packed X' Y',
    outcome (run_threads
               (pack_vector_f64_kernel [1; 2]%float [3; 4; 5]%float
                                       [1; 0] [0; 2; 1] 2 3 1 1)
               (grid_tids 2 3) [0; 0; 0; 0; 0; 0; 0]%float) = Some packed
    ∧ outcome (run_threads
                 (unpack_vector_f64_kernel packed [2; 0; 1] [0; 1] 3 2 1)
                 (grid_tids 1 5) ([0; 0; 0]%float, [0; 0]%float)) = Some (X', Y')
    ∧ (∀ i, 0 <= i < 3 →
         ∃ k, read [2; 0; 1] i = Some k
            ∧ is_Some (seg_at (segY (fd := double) [3; 4; 5]%float [0; 2; 1] 3 false) i)
            ∧ read X' k = seg_at (segY (fd := double) [3; 4; 5]%float [0; 2; 1] 3 false) i)
    ∧ (∀ i, 0 <= i < 2 →
         ∃ k, read [0; 1] i = Some k
            ∧ is_Some (seg_at (segX (fd := double) [1; 2]%float [1; 0] 2 true) i)
            ∧ read Y' k = seg_at (segX (fd := double) [1; 2]%float [1; 0] 2 true) i)
    ∧ (∀ q, q ∉ [2; 0; 1] → read X' q = read [0; 0; 0]%float q)
    ∧ (∀ q, q ∉ [0; 1] → read Y' q = read [0; 0]%float q).
Proof.
  apply (vector_exchange (fd := double) [1; 2]%float [3; 4; 5]%float
           [1; 0] [0; 2; 1] 2 3 1 1
           (segY (fd := double) [3; 4; 5]%float [0; 2; 1] 3 false)
           (segX (fd := double) [1; 2]%float [1; 0] 2 true)
           [0; 0; 0; 0; 0; 0; 0]%float 2 3 (grid_tids 2 3)
           [2; 0; 1] [0; 1] [0; 0; 0]%float [0; 0]%float 1 5 (grid_tids 1 5)).
  - reflexivity.
  - reflexivity.
  - check_all.
  - reflexivity.
  - check_all.
  - unfold INT_MAX. lia.
  - lia.
  - simpl. lia.
  - unfold INT_MAX. lia.
  - unfold INT_MAX. simpl. lia.
  - apply schedule_grid.
  - reflexivity.
  - by apply (bool_decide_unpack _).
  - check_all.
  - reflexivity.
  - by apply (bool_decide_unpack _).
  - check_all.
  - unfold INT_MAX. simpl. lia.
  - apply schedule_grid.
Defined.

(** X6. Vector round trip.  Under rotation code 0, packing [x] and [y]
    through index lists without repetition and unpacking the packed buffer
    through the same lists, at the same offset, into arrays of zeros of the
    lengths of [x] and [y], gives arrays equal to [x] at every index of the
    X list and to [y] at every index of the Y list (and zero elsewhere),
    whatever the order of the threads of either launch. *)
Theorem vector_round_trip {fd : Fdtype} (x y : list fval) (indexX indexY : list Z)
    (offset : Z) (buffer : list fval)
    (gridDim blockDim gridDim' blockDim' : nat) (sched sched' : list Z) :
  NoDup indexX → NoDup indexY →
  Forall (λ k, 0 <= k < Z.of_nat (length x)) indexX →
  Forall (λ k, 0 <= k < Z.of_nat (length y)) indexY →
  Z.of_nat (length indexX) + Z.of_nat (length indexY) <= INT_MAX →
  0 <= offset →
  offset + Z.of_nat (length indexX) + Z.of_nat (length indexY)
    <= Z.of_nat (length buffer) →
  offset + Z.of_nat (length indexX) + Z.of_nat (length indexY) <= INT_MAX + 1 →
  Z.of_nat (length indexX) + Z.of_nat (length indexY)
    <= Z.of_nat (gridDim * blockDim) <= INT_MAX + 1 →
  schedule_of gridDim blockDim sched →
  Z.of_nat (length indexX) + Z.of_nat (length indexY)
    <= Z.of_nat (gridDim' * blockDim') <= INT_MAX + 1 →
  schedule_of gridDim' blockDim' sched' →
  ∃ packed X' Y',
    outcome (run_threads
               (pack_vector x y indexX indexY (Z.of_nat (length indexX))
                            (Z.of_nat (length indexY)) offset 0)
               sched buffer) = Some packed
    ∧ outcome (run_threads
                 (unpack_vector packed indexX indexY (Z.of_nat (length indexX))
                                (Z.of_nat (length indexY)) offset)
                 sched' (replicate (length x) fzero, replicate (length y) fzero))
      = Some (X', Y')
    ∧ (∀ k, k ∈ indexX → read X' k = read x k)
    ∧ (∀ k, k ∈ indexY → read Y' k = read y k)
    ∧ (∀ k, k ∉ indexX → 0 <= k < Z.of_nat (length x) → read X' k = Some fzero)
    ∧ (∀ k, k ∉ indexY → 0 <= k < Z.of_nat (length y) → read Y' k = Some fzero).
Proof.
  intros HndX HndY HIX HIY HN Ho HoB HoN Hgrid Hsched Hgrid' Hsched'.
  destruct (exchange_launch x y indexX indexY (Z.of_nat (length indexX))
              (Z.of_nat (length indexY)) offset 0
              (segX x indexX (Z.of_nat (length indexX)) false)
              (segY y indexY (Z.of_nat (length indexY)) false) buffer
              gridDim blockDim sched indexX indexY
              (replicate (length x) fzero) (replicate (length y) fzero)
              gridDim' blockDim' sched' eq_refl)
    as (packed & X' & Y' & Hpack & Hunpack & HX & HY & HfX & HfY);
    rewrite ?length_replicate; try done.
  assert (∀ (a : list fval) (I : list Z) k, k ∈ I →
            ∃ i, 0 <= i < Z.of_nat (length I) ∧ read I i = Some k) as Hpos.
  { intros a I k [i Hi]%list_elem_of_lookup_1. exists (Z.of_nat i). split.
    - apply lookup_lt_Some in Hi. lia.
    - apply read_Some. split; [lia|]. by rewrite Nat2Z.id. }
  exists packed, X', Y'. split; [done|]. split; [done|].
  split; [|split; [|split]].
  - intros k Hk. destruct (Hpos x indexX k Hk) as (i & Hi & Hik).
    destruct (HX i Hi) as (k' & Hik' & _ & Hrd). rewrite Hik in Hik'.
    injection Hik' as <-. rewrite Hrd. unfold segX. rewrite seg_at_copy.
    unfold gathered. by rewrite Hik.
  - intros k Hk. destruct (Hpos y indexY k Hk) as (i & Hi & Hik).
    destruct (HY i Hi) as (k' & Hik' & _ & Hrd). rewrite Hik in Hik'.
    injection Hik' as <-. rewrite Hrd. unfold segY. rewrite seg_at_copy.
    unfold gathered. by rewrite Hik.
  - intros k Hk Hkr. rewrite HfX by done.
    apply read_Some. split; [lia|]. apply lookup_replicate_2. lia.
  - intros k Hk Hkr. rewrite HfY by done.
    apply read_Some. split; [lia|]. apply lookup_replicate_2. lia.
Qed.

Lemma vector_round_trip_witness :
  ∃ packed X' Y',
    outcome (run_threads
               (pack_vector_f32_kernel [f32 1; f32 2; f32 3] [f32 4; f32 5]
                                       [2; 0] [1] 2 1 1 0)
               (grid_tids 1 4) [f32 0; f32 0; f32 0; f32 0]) = Some packed
    ∧ outcome (run_threads
                 (unpack_vector_f32_kernel packed [2; 0] [1] 2 1 1)
                 (grid_tids 2 2) (replicate 3 (f32 0), replicate 2 (f32 0)))
      = Some (X', Y')
    ∧ (∀ k, k ∈ [2; 0] → read X' k = read [f32 1; f32 2; f32 3] k)
    ∧ (∀ k, k ∈ [1] → read Y' k = read [f32 4; f32 5] k).
Proof.
  destruct (vector_round_trip (fd := float32) [f32 1; f32 2; f32 3] [f32 4; f32 5]
              [2; 0] [1] 1 [f32 0; f32 0; f32 0; f32 0] 1 4 2 2
              (grid_tids 1 4) (grid_tids 2 2))
    as (packed & X' & Y' & H1 & H2 & H3 & H4 & _).
  - by apply (bool_decide_unpack _).
  - by apply (bool_decide_unpack _).
  - check_all.
  - check_all.
  - unfold INT_MAX. simpl. lia.
  - lia.
  - simpl. lia.
  - unfold INT_MAX. simpl. lia.
  - unfold INT_MAX. simpl. lia.
  - apply schedule_grid.
  - unfold INT_MAX. simpl. lia.
  - apply schedule_grid.
  - exists packed, X', Y'. by repeat split.
Defined.

(** ** Scalar unpack through an index list with repeated values *)

Section Unpack_order.
Context {fd : Fdtype}.
Variables (source : list fval) (index : list Z) (n o : Z).
Hypothesis Hlen : Z.of_nat (length index) = n.
Hypothesis Ho : 0 <= o.
Hypothesis HoB : o + n <= Z.of_nat (length source).
Hypothesis HoN : o + n <= INT_MAX + 1.

(** Any threads, covering the work or not: no fault, and a slot that none of
    them names keeps its value. *)
Lemma unpack_scalar_partial sched (D : list fval) :
  Forall (λ k, 0 <= k < Z.of_nat (length D)) index →
  (∀ t, t ∈ sched → 0 <= t) →
  ∃ D', outcome (run_threads (unpack_scalar source index n o) sched D) = Some D'
      ∧ length D' = length D
      ∧ (∀ q, (∀ t, t ∈ sched → t < n → read index t ≠ Some q) →
              read D' q = read D q).
Proof.
  intros Hall Hpos.
  destruct (scatter_launch _ n _ (unpack_scalar_outcome source index n o) sched D)
    as (D' & Hrun & HlenD & _ & Hframe).
  { intros i Hi HiN.
    destruct (unpack_eff_Some source index n o Hlen Ho HoB HoN i)
      as (k & v & Hk & _ & Heff); [split; auto|].
    exists k, v. split; [done|]. apply read_Some in Hk as [_ Hk].
    rewrite Forall_lookup in Hall. eauto. }
  exists D'. split; [done|]. split; [done|].
  intros q Hq. apply Hframe. intros i v Hi HiN Heff.
  destruct (unpack_eff_Some source index n o Hlen Ho HoB HoN i)
    as (k & w & Hk & _ & Heff'); [split; auto|].
  rewrite Heff' in Heff. injection Heff as -> _. by apply (Hq i).
Qed.

(** The last thread that names a slot decides its value. *)
Lemma unpack_last_write before i after (D : list fval) :
  Forall (λ k, 0 <= k < Z.of_nat (length D)) index →
  (∀ t, t ∈ before ++ i :: after → 0 <= t) →
  i < n →
  (∀ t, t ∈ after → t < n → read index t ≠ read index i) →
  ∃ D' k v,
    outcome (run_threads (unpack_scalar source index n o) (before ++ i :: after) D)
    = Some D'
    ∧ length D' = length D
    ∧ read index i = Some k ∧ read source (o + i) = Some v
    ∧ read D' k = Some v.
Proof.
  intros Hall Hpos Hi Hafter.
  assert (0 <= i) as Hi0 by (apply Hpos, elem_of_app; right; by left).
  destruct (unpack_scalar_partial before D) as (D1 & Hrun1 & Hlen1 & _);
    [done|intros; apply Hpos, elem_of_app; by left|].
  destruct (index_in_bounds index _ i Hall) as (k & Hk & Hkr); [lia|].
  destruct (read_in_bounds source (o + i)) as [v Hv]; [lia|].
  assert (int_add o i = o + i) as Hadd.
  { apply int_add_exact. unfold in_range, INT_MIN, INT_MAX in *. lia. }
  destruct (unpack_scalar_partial after (<[Z.to_nat k := v]> D1))
    as (D' & Hrun2 & Hlen2 & Hframe).
  { by rewrite length_insert, Hlen1. }
  { intros; apply Hpos, elem_of_app; right; by right. }
  exists D', k, v. rewrite run_threads_app, Hrun1. cbn [mbind option_bind].
  rewrite run_threads_cons, outcome_bind.
  rewrite (unpack_scalar_active source index n o i k v D1);
    [|done|by rewrite Hadd|done|by rewrite Hlen1].
  simpl. split; [done|].
  split; [by rewrite Hlen2, length_insert|]. split; [done|]. split; [done|].
  rewrite Hframe.
  - apply read_Some. split; [lia|]. apply list_lookup_insert_eq. lia.
  - intros t Ht HtN. rewrite <- Hk. by apply Hafter.
Qed.
End Unpack_order.

(** X7. Last write wins.  In a launch of scalar unpack, whatever the index
    list repeats, the slot [index[i]] of the destination ends with
    [source[offset + i]] when thread [i] runs after every other thread whose
    index is [index[i]]. *)
Theorem unpack_last_write_wins {fd : Fdtype} (source : list fval) (index : list Z)
    (n offset : Z) (destination : list fval) (before after : list Z) (i : Z) :
  Z.of_nat (length index) = n →
  Forall (λ k, 0 <= k < Z.of_nat (length destination)) index →
  0 <= offset →
  offset + n <= Z.of_nat (length source) →
  offset + n <= INT_MAX + 1 →
  (∀ t, t ∈ before ++ i :: after → 0 <= t) →
  i < n →
  (∀ t, t ∈ after → t < n → read index t ≠ read index i) →
  ∃ D' k v,
    outcome (run_threads (unpack_scalar source index n offset)
                         (before ++ i :: after) destination) = Some D'
    ∧ read index i = Some k ∧ read source (offset + i) = Some v
    ∧ read D' k = Some v.
Proof.
  intros Hlen Hall Ho HoB HoN Hpos Hi Hafter.
  destruct (unpack_last_write source index n offset Hlen Ho HoB HoN
              before i after destination)
    as (D' & k & v & Hrun & _ & Hk & Hv & Hrd); try done.
  by exists D', k, v.
Qed.

Lemma unpack_last_write_wins_witness :
  ∃ D' k v,
    outcome (run_threads (unpack_scalar_f64_kernel [7; 8; 9]%float [1; 1; 0] 3 0)
                         ([2; 1] ++ 0 :: [3]) [0; 0]%float) = Some D'
    ∧ read [1; 1; 0] 0 = Some k ∧ read [7; 8; 9]%float (0 + 0) = Some v
    ∧ read D' k = Some v.
Proof.
  apply (unpack_last_write_wins (fd := double) [7; 8; 9]%float [1; 1; 0] 3 0
           [0; 0]%float [2; 1] [3] 0).
  - reflexivity.
  - check_all.
  - lia.
  - simpl. lia.
  - unfold INT_MAX. lia.
  - intros t Ht. simpl in Ht. rewrite !elem_of_cons, elem_of_nil in Ht. lia.
  - lia.
  - intros t Ht HtN. rewrite elem_of_cons, elem_of_nil in Ht. lia.
Defined.

(** X8. With a repeated index the order of the threads shows.  When two
    threads [i] and [j] of scalar unpack have the same index and the buffer
    holds different values for them, the launch that runs [i] then [j] last
    and the launch that runs [j] then [i] last, two orders of the same grid,
    give different destination arrays: the slot holds the value of the one
    that ran last. *)
Theorem unpack_order_dependent {fd : Fdtype} (source : list fval) (index : list Z)
    (n offset : Z) (destination : list fval) (rest : list Z) (i j : Z)
    (gridDim blockDim : nat) :
  Z.of_nat (length index) = n →
  Forall (λ k, 0 <= k < Z.of_nat (length destination)) index →
  0 <= offset →
  offset + n <= Z.of_nat (length source) →
  offset + n <= INT_MAX + 1 →
  Z.of_nat (gridDim * blockDim) <= INT_MAX + 1 →
  schedule_of gridDim blockDim (rest ++ [i; j]) →
  i < n → j < n →
  read index i = read index j →
  read source (offset + i) ≠ read source (offset + j) →
  schedule_of gridDim blockDim (rest ++ [j; i])
  ∧ ∃ Dij Dji k,
      outcome (run_threads (unpack_scalar source index n offset)
                           (rest ++ [i; j]) destination) = Some Dij
      ∧ outcome (run_threads (unpack_scalar source index n offset)
                             (rest ++ [j; i]) destination) = Some Dji
      ∧ read index i = Some k
      ∧ read Dij k = read source (offset + j)
      ∧ read Dji k = read source (offset + i)
      ∧ Dij ≠ Dji.
Proof.
  intros Hlen Hall Ho HoB HoN Hgrid Hsched Hi Hj Hsame Hdiff.
  assert (schedule_of gridDim blockDim (rest ++ [j; i])) as Hsched'.
  { unfold schedule_of in *. rewrite <- Hsched.
    apply Permutation_app_head, perm_swap. }
  split; [done|].
  pose proof (schedule_nonneg gridDim blockDim _ Hgrid Hsched) as Hpos.
  pose proof (schedule_nonneg gridDim blockDim _ Hgrid Hsched') as Hpos'.
  destruct (unpack_last_write source index n offset Hlen Ho HoB HoN
              (rest ++ [i]) j [] destination)
    as (Dij & k & v & Hrun & _ & Hk & Hv & Hrd); try done.
  { by rewrite <- app_assoc. }
  { by intros t ?%elem_of_nil. }
  destruct (unpack_last_write source index n offset Hlen Ho HoB HoN
              (rest ++ [j]) i [] destination)
    as (Dji & k' & v' & Hrun' & _ & Hk' & Hv' & Hrd'); try done.
  { by rewrite <- app_assoc. }
  { by intros t ?%elem_of_nil. }
  rewrite <- app_assoc in Hrun, Hrun'. simpl in Hrun, Hrun'.
  assert (k' = k) as -> by congruence.
  exists Dij, Dji, k. split; [done|]. split; [done|]. split; [done|].
  split; [congruence|]. split; [congruence|].
  intros Heq. apply Hdiff. rewrite Hv, Hv', <- Hrd, <- Hrd'. by rewrite Heq.
Qed.

Lemma unpack_order_dependent_witness :
  schedule_of 1 3 ([0] ++ [2; 1])
  ∧ ∃ Dij Dji k,
      outcome (run_threads (unpack_scalar_f64_kernel [7; 8; 9]%float [1; 0; 0] 3 0)
                           ([0] ++ [1; 2]) [0; 0]%float) = Some Dij
      ∧ outcome (run_threads (unpack_scalar_f64_kernel [7; 8; 9]%float [1; 0; 0] 3 0)
                             ([0] ++ [2; 1]) [0; 0]%float) = Some Dji
      ∧ read [1; 0; 0] 1 = Some k
      ∧ read Dij k = read [7; 8; 9]%float (0 + 2)
      ∧ read Dji k = read [7; 8; 9]%float (0 + 1)
      ∧ Dij ≠ Dji.
Proof.
  apply (unpack_order_dependent (fd := double) [7; 8; 9]%float [1; 0; 0] 3 0
           [0; 0]%float [0] 1 2 1 3).
  - reflexivity.
  - check_all.
  - lia.
  - simpl. lia.
  - unfold INT_MAX. lia.
  - unfold INT_MAX. simpl. lia.
  - apply schedule_grid.
  - lia.
  - lia.
  - reflexivity.
  - by vm_compute.
Defined.

(** ** Arrays compared element by element *)

Lemma list_eq_read {A} (l1 l2 : list A) :
  (∀ p, read l1 p = read l2 p) → l1 = l2.
Proof.
  intros Hrd. apply list_eq. intros i. specialize (Hrd (Z.of_nat i)).
  unfold read in Hrd. destruct (Z.leb_spec 0 (Z.of_nat i)); [|lia].
  by rewrite Nat2Z.id in Hrd.
Qed.

(** X9. A pack launch is deterministic and idempotent.  For either pack
    kernel and valid arguments, any two launches that cover the declared
    count, of whatever grid sizes and in whatever orders of the threads,
    leave the same buffer; and launching the pack again on that buffer
    leaves it as it is. *)
Theorem pack_deterministic {fd : Fdtype} (c : pack_call) (buffer : list fval)
    (gridDim blockDim gridDim' blockDim' : nat) (sched sched' : list Z) :
  pack_ok c (length buffer) →
  pack_count c <= Z.of_nat (gridDim * blockDim) <= INT_MAX + 1 →
  schedule_of gridDim blockDim sched →
  pack_count c <= Z.of_nat (gridDim' * blockDim') <= INT_MAX + 1 →
  schedule_of gridDim' blockDim' sched' →
  ∃ B', outcome (run_threads (pack_body c) sched buffer) = Some B'
      ∧ outcome (run_threads (pack_body c) sched' buffer) = Some B'
      ∧ outcome (run_threads (pack_body c) sched' B') = Some B'.
Proof.
  intros Hok Hgrid Hsched Hgrid' Hsched'.
  assert (∀ t, t ∈ sched → 0 <= t) as Hpos
    by (eapply (schedule_nonneg gridDim blockDim); [lia|done]).
  assert (∀ t, t ∈ sched' → 0 <= t) as Hpos'
    by (eapply (schedule_nonneg gridDim' blockDim'); [lia|done]).
  pose proof (schedule_covers gridDim blockDim sched _ Hgrid Hsched) as Hcov.
  pose proof (schedule_covers gridDim' blockDim' sched' _ Hgrid' Hsched') as Hcov'.
  destruct (pack_call_launch c _ Hok) as [content Hrun].
  destruct (Hrun buffer sched) as (B1 & HB1 & Hlen1 & Hin1 & Hout1); try done.
  destruct (Hrun buffer sched') as (B2 & HB2 & Hlen2 & Hin2 & Hout2); try done.
  destruct (Hrun B1 sched') as (B3 & HB3 & Hlen3 & Hin3 & Hout3); try done.
  assert (B2 = B1) as ->.
  { apply list_eq_read. intros p.
    destruct (decide (in_pack_range c p)) as [Hp|Hp].
    - by rewrite Hin1, Hin2.
    - by rewrite Hout1, Hout2. }
  assert (B3 = B1) as ->.
  { apply list_eq_read. intros p.
    destruct (decide (in_pack_range c p)) as [Hp|Hp]; [|by apply Hout3].
    rewrite Hin3, Hin1 by done. by destruct (content p). }
  by exists B1.
Qed.

Lemma pack_deterministic_witness :
  ∃ B', outcome (run_threads
                   (pack_vector_f64_kernel [1; 2]%float [3; 4]%float [0; 1] [0; 1]
                                           2 2 1 3)
                   (grid_tids 1 4) [0; 0; 0; 0; 0; 0]%float) = Some B'
      ∧ outcome (run_threads
                   (pack_vector_f64_kernel [1; 2]%float [3; 4]%float [0; 1] [0; 1]
                                           2 2 1 3)
                   (grid_tids 3 2) [0; 0; 0; 0; 0; 0]%float) = Some B'
      ∧ outcome (run_threads
                   (pack_vector_f64_kernel [1; 2]%float [3; 4]%float [0; 1] [0; 1]
                                           2 2 1 3)
                   (grid_tids 3 2) B') = Some B'.
Proof.
  apply (pack_deterministic (fd := double)
           (PackVector (fd := double) [1; 2]%float [3; 4]%float [0; 1] [0; 1] 2 2 1 3)
           [0; 0; 0; 0; 0; 0]%float 1 4 3 2 (grid_tids 1 4) (grid_tids 3 2)).
  - simpl. split; [reflexivity|]. split; [check_all|]. split; [reflexivity|].
    split; [check_all|]. unfold INT_MAX. lia.
  - unfold INT_MAX. simpl. lia.
  - apply schedule_grid.
  - unfold INT_MAX. simpl. lia.
  - apply schedule_grid.
Defined.



(** X11. Vector pack under rotation code 0 is two scalar packs.  For valid
    arguments the buffer left by vector pack under code 0 is the buffer left
    by the scalar pack of [x] at [offset] followed by the scalar pack of [y]
    at [offset + nX], whatever the orders of the threads of the three
    launches. *)
Theorem pack_vector_identity_as_scalars {fd : Fdtype} (x y : list fval)
    (indexX indexY : list Z) (nX nY offset : Z) (buffer : list fval)
    (gridDim blockDim : nat) (sched schedX schedY : list Z) :
  Z.of_nat (length indexX) = nX →
  Forall (λ k, 0 <= k < Z.of_nat (length x)) indexX →
  Z.of_nat (length indexY) = nY →
  Forall (λ k, 0 <= k < Z.of_nat (length y)) indexY →
  nX + nY <= INT_MAX →
  0 <= offset →
  offset + nX + nY <= Z.of_nat (length buffer) →
  offset + nX + nY <= INT_MAX + 1 →
  nX + nY <= Z.of_nat (gridDim * blockDim) <= INT_MAX + 1 →
  schedule_of gridDim blockDim sched →
  schedule_of gridDim blockDim schedX →
  schedule_of gridDim blockDim schedY →
  ∃ B1 B',
    outcome (run_threads (pack_scalar x indexX nX offset) schedX buffer) = Some B1
    ∧ outcome (run_threads (pack_scalar y indexY nY (offset + nX)) schedY B1)
      = Some B'
    ∧ outcome (run_threads (pack_vector x y indexX indexY nX nY offset 0)
                           sched buffer) = Some B'.
Proof.
  intros HX HIX HY HIY HN Ho HoB HoN Hgrid Hsched HschedX HschedY.
  assert (∀ s, schedule_of gridDim blockDim s →
            (∀ t, t ∈ s → 0 <= t) ∧ covers s (nX + nY)) as Hs.
  { intros s Hsch. split.
    - eapply (schedule_nonneg gridDim blockDim); [lia|done].
    - by eapply (schedule_covers gridDim blockDim). }
  destruct (Hs _ Hsched) as [Hpos Hcov]. destruct (Hs _ HschedX) as [HposX HcovX].
  destruct (Hs _ HschedY) as [HposY HcovY].
  destruct (pack_scalar_launch x indexX nX offset buffer schedX)
    as (B1 & HB1 & Hlen1 & Hget1 & Hfr1); try done; try lia.
  { intros i Hi. apply HcovX. lia. }
  destruct (pack_scalar_launch y indexY nY (offset + nX) B1 schedY)
    as (B2 & HB2 & Hlen2 & Hget2 & Hfr2); try done; try lia.
  { intros i Hi. apply HcovY. lia. }
  destruct (pack_vector_launch x y indexX indexY nX nY offset 0 _ _ buffer sched
              eq_refl)
    as (B' & HB' & Hlen' & H1 & H2 & Hfr'); try done.
  exists B1, B2. split; [done|]. split; [done|]. rewrite HB'. f_equal.
  apply list_eq_read. intros p. unfold segX, segY in *. simpl in H1, H2.
  destruct (decide (offset <= p < offset + nX)) as [Hp1|Hp1].
  - destruct (H1 (p - offset)) as [_ Hrd]; [lia|].
    destruct (Hget1 (p - offset)) as [_ Hrd1]; [lia|].
    rewrite seg_at_copy in Hrd.
    replace (offset + (p - offset)) with p in * by lia.
    rewrite Hrd, Hfr2, Hrd1 by lia. done.
  - destruct (decide (offset + nX <= p < offset + nX + nY)) as [Hp2|Hp2].
    + destruct (H2 (p - offset - nX)) as [_ Hrd]; [lia|].
      destruct (Hget2 (p - offset - nX)) as [_ Hrd2]; [lia|].
      rewrite seg_at_copy in Hrd.
      replace (offset + nX + (p - offset - nX)) with p in * by lia.
      by rewrite Hrd, Hrd2.
    + rewrite Hfr', Hfr2, Hfr1 by lia. done.
Qed.

Lemma pack_vector_identity_as_scalars_witness :
  ∃ B1 B',
    outcome (run_threads (pack_scalar_f64_kernel [1; 2]%float [1; 0] 2 1)
                         (grid_tids 1 5) [0; 0; 0; 0; 0; 0]%float) = Some B1
    ∧ outcome (run_threads (pack_scalar_f64_kernel [3; 4; 5]%float [0; 2; 1] 3 (1 + 2))
                           (grid_tids 1 5) B1) = Some B'
    ∧ outcome (run_threads (pack_vector_f64_kernel [1; 2]%float [3; 4; 5]%float
                              [1; 0] [0; 2; 1] 2 3 1 0)
                           (grid_tids 1 5) [0; 0; 0; 0; 0; 0]%float) = Some B'.
Proof.
  apply (pack_vector_identity_as_scalars (fd := double) [1; 2]%float [3; 4; 5]%float
           [1; 0] [0; 2; 1] 2 3 1 [0; 0; 0; 0; 0; 0]%float 1 5
           (grid_tids 1 5) (grid_tids 1 5) (grid_tids 1 5)).
  - reflexivity.
  - check_all.
  - reflexivity.
  - check_all.
  - unfold INT_MAX. lia.
  - lia.
  - simpl. lia.
  - unfold INT_MAX. lia.
  - unfold INT_MAX. simpl. lia.
  - apply schedule_grid.
  - apply schedule_grid.
  - apply schedule_grid.
Defined.

(** X12. From a buffer to an array and back.  Scalar unpack of a buffer
    range through an index list without repetition, followed by scalar pack
    of the array through the same list into any buffer at any offset, copies
    the first range to the second: position [i] of the new range holds
    [source[offset + i]]. *)
Theorem unpack_pack_forward {fd : Fdtype} (source : list fval) (index : list Z)
    (n offset offset' : Z) (array buffer : list fval)
    (gridDim blockDim gridDim' blockDim' : nat) (sched sched' : list Z) :
  Z.of_nat (length index) = n →
  NoDup index →
  Forall (λ k, 0 <= k < Z.of_nat (length array)) index →
  0 <= offset →
  offset + n <= Z.of_nat (length source) →
  offset + n <= INT_MAX + 1 →
  0 <= offset' →
  offset' + n <= Z.of_nat (length buffer) →
  offset' + n <= INT_MAX + 1 →
  n <= Z.of_nat (gridDim * blockDim) <= INT_MAX + 1 →
  schedule_of gridDim blockDim sched →
  n <= Z.of_nat (gridDim' * blockDim') <= INT_MAX + 1 →
  schedule_of gridDim' blockDim' sched' →
  ∃ unpacked packed,
    outcome (run_threads (unpack_scalar source index n offset) sched array)
    = Some unpacked
    ∧ outcome (run_threads (pack_scalar unpacked index n offset') sched' buffer)
      = Some packed
    ∧ (∀ i, 0 <= i < n → is_Some (read source (offset + i))
            ∧ read packed (offset' + i) = read source (offset + i))
    ∧ (∀ p, ¬ (offset' <= p < offset' + n) → read packed p = read buffer p).
Proof.
  intros Hlen Hnodup Hall Ho HoB HoN Ho' HoB' HoN' Hgrid Hsched Hgrid' Hsched'.
  destruct (unpack_scalar_launch source index n offset Hlen Ho HoB HoN sched array)
    as (unpacked & Hunpack & Hlenu & Hset & _); try done.
  { eapply (schedule_nonneg gridDim blockDim); [lia|done]. }
  { by eapply (schedule_covers gridDim blockDim). }
  destruct (pack_scalar_launch unpacked index n offset' buffer sched')
    as (packed & Hpack & Hlenp & Hget & Hframe); try done.
  { by rewrite Hlenu. }
  { eapply (schedule_nonneg gridDim' blockDim'); [lia|done]. }
  { by eapply (schedule_covers gridDim' blockDim'). }
  exists unpacked, packed. split; [done|]. split; [done|]. split; [|done].
  intros i Hi. destruct (Hset i Hi) as (j & k & v & Hj & Hik & Hjk & Hv & Hrd).
  assert (i = j) as <-.
  { apply read_Some in Hik as [_ Hik]. apply read_Some in Hjk as [_ Hjk].
    pose proof (NoDup_lookup _ _ _ _ Hnodup Hik Hjk). lia. }
  destruct (Hget i Hi) as [_ Hpacked]. rewrite Hv. split; [done|].
  rewrite Hpacked. unfold gathered. rewrite Hik. done.
Qed.

Lemma unpack_pack_forward_witness :
  ∃ unpacked packed,
    outcome (run_threads (unpack_scalar_f64_kernel [7; 8; 9; 10]%float [2; 0] 2 1)
                         (grid_tids 1 4) [0; 0; 0]%float) = Some unpacked
    ∧ outcome (run_threads (pack_scalar_f64_kernel unpacked [2; 0] 2 3)
                           (grid_tids 1 2) [0; 0; 0; 0; 0]%float) = Some packed
    ∧ (∀ i, 0 <= i < 2 → is_Some (read [7; 8; 9; 10]%float (1 + i))
            ∧ read packed (3 + i) = read [7; 8; 9; 10]%float (1 + i))
    ∧ (∀ p, ¬ (3 <= p < 3 + 2) → read packed p = read [0; 0; 0; 0; 0]%float p).
Proof.
  apply (unpack_pack_forward (fd := double) [7; 8; 9; 10]%float [2; 0] 2 1 3
           [0; 0; 0]%float [0; 0; 0; 0; 0]%float 1 4 1 2
           (grid_tids 1 4) (grid_tids 1 2)).
  - reflexivity.
  - by apply (bool_decide_unpack _).
  - check_all.
  - lia.
  - simpl. lia.
  - unfold INT_MAX. lia.
  - lia.
  - simpl. lia.
  - unfold INT_MAX. lia.
  - unfold INT_MAX. simpl. lia.
  - apply schedule_grid.
  - unfold INT_MAX. simpl. lia.
  - apply schedule_grid.
Defined.

(** ** The text of the kernels and the module's handles *)

Section Kernel_text.
Import Source.
Local Open Scope string_scope.

Lemma string_app_assoc (a b c : string) : (a ++ b) ++ c = a ++ b ++ c.
Proof. induction a as [|x a IH]; simpl; [reflexivity | now rewrite IH]. Qed.

Lemma strip_suffix_sound (suffix s before : string) :
  strip_suffix suffix s = Some before → s = before ++ suffix.
Proof.
  revert before. induction s as [|c s IH]; intros before; cbn [strip_suffix].
  - destruct (String.eqb_spec EmptyString suffix) as [<-|_]; intros H;
      [|discriminate H].
    now injection H as <-.
  - destruct (String.eqb_spec (String c s) suffix) as [<-|_]; intros H.
    + now injection H as <-.
    + destruct (strip_suffix suffix s) as [b|]; [|discriminate H].
      injection H as <-. simpl. now rewrite (IH b eq_refl).
Qed.

Lemma strip_prefix_sound (prefix s after : string) :
  strip_prefix prefix s = Some after → s = prefix ++ after.
Proof.
  revert s. induction prefix as [|c p IH]; intros s; simpl.
  - intros H. now injection H as <-.
  - destruct s as [|c' s]; intros H; [discriminate H|].
    destruct (Ascii.eqb_spec c c') as [<-|_]; [|discriminate H].
    simpl. now rewrite (IH _ H).
Qed.

(** A scan without error whose fields are all [{fdtype}] is rendered, whatever
    the value of [fdtype]. *)
Lemma render_only_fdtype (d : string) (ps : list piece) :
  only_fdtype ps = true → ∃ t, render [("fdtype", d)] ps = Return t.
Proof.
  induction ps as [|p ps IH]; simpl; [now exists EmptyString|].
  intros [Hp Hps]%andb_prop. destruct (IH Hps) as [t Ht].
  destruct p as [l|name|e]; [| |discriminate Hp].
  - rewrite Ht. now eexists.
  - apply String.eqb_eq in Hp as ->. cbn. rewrite Ht. now eexists.
Qed.

Lemma occurs_in_after (needle before text : string) :
  occurs_in needle text → occurs_in needle (before ++ text).
Proof.
  intros (b & a & ->). exists (before ++ b), a.
  now rewrite !string_app_assoc.
Qed.

(** Where the scan has the field between [prefix] and [suffix], the rendered
    text has the value of [fdtype] between them. *)
Lemma render_field_between (d prefix suffix : string) (ps : list piece) :
  only_fdtype ps = true →
  field_between prefix suffix ps = true →
  ∃ t, render [("fdtype", d)] ps = Return t
       ∧ occurs_in (prefix ++ d ++ suffix) t.
Proof.
  induction ps as [|p ps IH]; [discriminate 2|].
  intros Hall Hf. pose proof Hall as Hall'.
  cbn [only_fdtype forallb] in Hall'.
  apply andb_prop in Hall' as [Hp Hps]. fold (only_fdtype ps) in Hps.
  destruct p as [l|name|e]; [| |discriminate Hp].
  - cbn [field_between] in Hf. apply orb_prop in Hf as [Hhere|Hlater].
    + destruct ps as [|[|name|] [|[l'| |] rest]]; try discriminate Hhere.
      apply andb_prop in Hhere as [->%String.eqb_eq Hstrip].
      destruct (strip_suffix prefix l) as [before|] eqn:Hl;
        [|discriminate Hstrip].
      destruct (strip_prefix suffix l') as [after|] eqn:Hl';
        [|discriminate Hstrip].
      apply strip_suffix_sound in Hl as ->.
      apply strip_prefix_sound in Hl' as ->.
      destruct (render_only_fdtype d rest) as [t Ht].
      { cbn [only_fdtype forallb] in Hps.
        now apply andb_prop in Hps as [_ [_ ?]%andb_prop]. }
      cbn [render]. rewrite Ht.
      replace (field_value "fdtype" [("fdtype", d)]) with (Return d)
        by reflexivity.
      eexists. split; [reflexivity|].
      exists before, (after ++ t). now rewrite !string_app_assoc.
    + destruct (IH Hps Hlater) as (t & Ht & Ho).
      cbn [render]. rewrite Ht. eexists. split; [reflexivity|].
      now apply occurs_in_after.
  - apply String.eqb_eq in Hp as ->.
    destruct (IH Hps Hf) as (t & Ht & Ho).
    cbn [render]. rewrite Ht.
    replace (field_value "fdtype" [("fdtype", d)]) with (Return d)
      by reflexivity.
    eexists. split; [reflexivity|]. now apply occurs_in_after.
Qed.


Ltac scan_template :=
  unfold format;
  match goal with
  | |- ∃ t, render _ (scan ?tpl None) = _ ∧ _ =>
      let ps := eval vm_compute in (scan tpl None) in
      change (scan tpl None) with ps
  end.

Ltac entry_point entry :=
  scan_template;
  unfold declares;
  change ("void " ++ (entry ++ ?d) ++ "(") with (("void " ++ entry) ++ d ++ "(");
  apply render_field_between; vm_compute; reflexivity.

Lemma pack_scalar_code_declares (float_dtype : string) :
  ∃ t, pack_scalar_code float_dtype = Return t
       ∧ declares ("pack_scalar_" ++ float_dtype) t.
Proof. unfold pack_scalar_code. entry_point "pack_scalar_". Qed.

Lemma unpack_scalar_code_declares (float_dtype : string) :
  ∃ t, unpack_scalar_code float_dtype = Return t
       ∧ declares ("unpack_scalar_" ++ float_dtype) t.
Proof. unfold unpack_scalar_code. entry_point "unpack_scalar_". Qed.

Lemma pack_vector_code_declares (float_dtype : string) :
  ∃ t, pack_vector_code float_dtype = Return t
       ∧ declares ("pack_vector_" ++ float_dtype) t.
Proof. unfold pack_vector_code. entry_point "pack_vector_". Qed.

Lemma unpack_vector_code_declares (float_dtype : string) :
  ∃ t, unpack_vector_code float_dtype = Return t
       ∧ declares ("unpack_vector_" ++ float_dtype) t.
Proof. unfold unpack_vector_code. entry_point "unpack_vector_". Qed.

(** When [cp] is there, [cp.RawKernel] is given a text that declares the
    name it is given, as soon as the code function declares it for that
    element type. *)
Lemma raw_kernel_declares (code_of : string → result string)
    (entry float_dtype : string) :
  (∃ t, code_of float_dtype = Return t ∧ declares (entry ++ float_dtype) t) →
  ∃ c, raw_kernel_or_none (Some Cupy) code_of float_dtype
         (entry ++ float_dtype)
       = Return (Some {| code := c; name := entry ++ float_dtype |})
       ∧ declares (entry ++ float_dtype) c.
Proof.
  intros (t & Ht & Hd). exists t. unfold raw_kernel_or_none.
  now rewrite Ht.
Qed.

(** X13.  Whatever string is given as [float_dtype], each of the four code
    functions returns (it raises nothing, also for a string with braces: the
    value put in is not scanned again) a text that declares the function
    named after the kernel and the element type, [<kernel>_<float_dtype>]:
    the name under which the module's handles then look the kernel up. *)
Theorem code_declares_entry_point (float_dtype : string) :
  (∃ t, pack_scalar_code float_dtype = Return t
        ∧ declares ("pack_scalar_" ++ float_dtype) t)
  ∧ (∃ t, unpack_scalar_code float_dtype = Return t
          ∧ declares ("unpack_scalar_" ++ float_dtype) t)
  ∧ (∃ t, pack_vector_code float_dtype = Return t
          ∧ declares ("pack_vector_" ++ float_dtype) t)
  ∧ (∃ t, unpack_vector_code float_dtype = Return t
          ∧ declares ("unpack_vector_" ++ float_dtype) t).
Proof.
  split; [apply pack_scalar_code_declares|].
  split; [apply unpack_scalar_code_declares|].
  split; [apply pack_vector_code_declares|apply unpack_vector_code_declares].
Qed.

(** X14.  The eight handles of the module.  Without [cupy] each of them is
    [None] and no code is generated.  With [cupy] none of them raises at
    import, and each is a [RawKernel] whose name is the one written in the
    module and whose code declares a function of exactly that name, so that
    the look-up of the kernel by name succeeds. *)
Theorem handles_declared (cp : option cupy) :
  Forall (λ '(entry, handle),
            match cp with
            | None => handle cp = Return None
            | Some _ => ∃ c, handle cp
                             = Return (Some {| code := c; name := entry |})
                             ∧ declares entry c
            end) handles.
Proof.
  destruct cp as [[]|]; [|repeat constructor].
  repeat apply Forall_cons_2; [..|apply Forall_nil_2].
  - apply (raw_kernel_declares _ "pack_scalar_" "double"),
      pack_scalar_code_declares.
  - apply (raw_kernel_declares _ "pack_scalar_" "float"),
      pack_scalar_code_declares.
  - apply (raw_kernel_declares _ "unpack_scalar_" "double"),
      unpack_scalar_code_declares.
  - apply (raw_kernel_declares _ "unpack_scalar_" "float"),
      unpack_scalar_code_declares.
  - apply (raw_kernel_declares _ "pack_vector_" "double"),
      pack_vector_code_declares.
  - apply (raw_kernel_declares _ "pack_vector_" "float"),
      pack_vector_code_declares.
  - apply (raw_kernel_declares _ "unpack_vector_" "double"),
      unpack_vector_code_declares.
  - apply (raw_kernel_declares _ "unpack_vector_" "float"),
      unpack_vector_code_declares.
Qed.


End Kernel_text.
